(** * go-perun: channel backend registry and channel proposal messages

    A shallow embedding of [client/proposalmsgs.go] (the wire codec of the
    three messages of the Multi-Party Channel Proposal Protocol) and of the
    parts of package [channel] that [channel/backend_test.go] exercises.

    Conventions of the embedding.
    - An [io.Writer] is the list of bytes written so far, an [io.Reader] the
      list of bytes not yet consumed.
    - A Go function returning [error] returns [option error]; [None] is Go's
      [nil].  A Go function returning [(T, error)] returns both components,
      as in Go, so that an assignment [x, err = f()] stores the first
      component whatever the second is.
    - A method with a pointer receiver takes the pointee and returns its new
      contents.
    - Packages [wire], [wallet], [pkg/io] and the non-test part of [channel]
      are not part of the embedded sources; the codecs they provide are the
      fields of the classes [Wire], [Wallet] and [Channel]. *)

From Stdlib Require Import ZArith List String Ascii Bool Lia.
From Stdlib Require Import DecimalString DecimalZ DecimalPos.
From Stdlib.Strings Require Import Byte.
Import ListNotations.
Open Scope string_scope.
Open Scope Z_scope.
Open Scope list_scope.

(** ** Errors ([github.com/pkg/errors]) *)

Module errors.

(** An error value is either a leaf carrying its message ([errors.New],
    [errors.Errorf], and the sentinel errors of the standard library) or a
    cause annotated with a message ([errors.WithMessage]). *)
Inductive error : Type :=
| fundamental (msg : string)
| withMessage (cause : error) (msg : string).

(** The [Error()] method. *)
Fixpoint Error (e : error) : string :=
  match e with
  | fundamental msg => msg
  | withMessage cause msg => (msg ++ ": " ++ Error cause)%string
  end.

(** [errors.Cause]: the innermost error of a chain of annotations. *)
Fixpoint Cause (e : error) : error :=
  match e with
  | fundamental _ => e
  | withMessage cause _ => Cause cause
  end.

(** The verb [%d] of package [fmt] on an integer: decimal digits, with a
    leading minus sign on a negative number. *)
Definition fmt_d (z : Z) : string := NilZero.string_of_int (Z.to_int z).

(** [fmt.Sprintf], for formats whose only verb is [%d]. *)
Fixpoint Sprintf (format : string) (args : list Z) : string :=
  match format with
  | EmptyString => EmptyString
  | String "%" (String "d" rest) =>
      match args with
      | a :: args' => (fmt_d a ++ Sprintf rest args')%string
      | [] => ("%!d(MISSING)" ++ Sprintf rest [])%string
      end
  | String ch rest => String ch (Sprintf rest args)
  end.

Definition Errorf (format : string) (args : list Z) : error :=
  fundamental (Sprintf format args).

Definition WithMessage (err : error) (message : string) : error :=
  withMessage err message.

(** [e] carries [c] when [c] is [e] itself or is reachable from [e] through
    the causes of its annotations. *)
Fixpoint carries (e c : error) : Prop :=
  e = c \/ match e with
           | fundamental _ => False
           | withMessage cause _ => carries cause c
           end.

End errors.
Export errors.

(** ** Integer types ([math]) *)

Module math.
Definition MaxInt32 : Z := 2147483647.
Definition MaxUint16 : Z := 65535.
End math.

(** The conversion [int32(x)] of a Go [int]: the low 32 bits, read in two's
    complement. *)
Definition int32 (x : Z) : Z := (x + 2 ^ 31) mod 2 ^ 32 - 2 ^ 31.

(** ** Writers, readers and the shape of codecs *)

Definition Writer : Type := list byte.
Definition Reader : Type := list byte.

(** An encoder extends the writer and reports an error or [nil]. *)
Definition Enc : Type := Writer -> Writer * option error.

(** A decoder returns the decoded value, the rest of the reader and an error
    or [nil]. *)
Definition Dec (A : Type) : Type := Reader -> A * Reader * option error.

(** [if err := e1(w); err != nil { return err }; e2(w)] *)
Definition andThen (e1 e2 : Enc) : Enc :=
  fun w =>
    match e1 w with
    | (w', Some err) => (w', Some err)
    | (w', None) => e2 w'
    end.

Notation "e1 ;; e2" := (andThen e1 e2) (at level 61, right associativity).

(** [if err != nil { return err }] in a function whose state is [st]. *)
Notation "'iferr' err 'ret' st ';' k" :=
  (match err with
   | Some e => (st, Some e)
   | None => k
   end) (at level 10, err at level 9, st at level 9, k at level 200,
         only parsing).

(** ** The packages the messages are built on *)

(** [SessionID = [32]byte]: the bytes of the array, of which there are 32. *)
Definition SessionID : Type := list byte.

(** Package [wire]: [wire.Encode(w, v1, ..., vn)] and
    [wire.Decode(r, &v1, ..., &vn)] handle their arguments from left to
    right and stop at the first error; a call with several arguments is the
    sequence of the calls with one.  The codec of each Go type is a field. *)
Class Wire : Type := {
  Encode_uint64 : Z -> Enc;
  Decode_uint64 : Z -> Dec Z;
  (* *big.Int: [None] is the nil pointer *)
  Encode_bigInt : option Z -> Enc;
  Decode_bigInt : option Z -> Dec (option Z);
  Encode_int32 : Z -> Enc;
  Decode_int32 : Z -> Dec Z;
  Encode_bytes32 : SessionID -> Enc;
  Decode_bytes32 : SessionID -> Dec SessionID;
  Encode_string : string -> Enc;
  Decode_string : string -> Dec string
}.

(** Package [wallet]: the interface [wallet.Address] (whose values include
    nil), its method [Encode] and the backend's [wallet.DecodeAddress]. *)
Class Wallet : Type := {
  Address : Type;
  Address_nil : Address;
  Address_Encode : Address -> Enc;
  DecodeAddress : Dec Address
}.

(** Package [channel]: the interface [channel.Data] with its method
    [Encode], the interface [channel.App] with its method [DecodeData], the
    resolution [channel.AppFromDefinition], and [*channel.Allocation] with
    the methods [Encode] and [Decode] that [perunio.Encode] and
    [perunio.Decode] call. *)
Class Channel `{Wallet} : Type := {
  Data : Type;
  Data_nil : Data;
  Data_Encode : Data -> Enc;
  App : Type;
  AppFromDefinition : Address -> App * option error;
  DecodeData : App -> Dec Data;
  (* *channel.Allocation *)
  Allocation : Type;
  Allocation_nil : Allocation;
  (* &channel.Allocation{} *)
  Allocation_new : Allocation;
  Allocation_Encode : Allocation -> Enc;
  Allocation_Decode : Allocation -> Dec Allocation
}.

(** Index assignment [s[i] = v] on a slice; the callers below only assign
    within the length of the slice (out of range Go panics, here the slice
    is returned as it is). *)
Fixpoint set_index {A : Type} (s : list A) (i : nat) (v : A) : list A :=
  match s, i with
  | [], _ => []
  | _ :: s', O => v :: s'
  | x :: s', S i' => x :: set_index s' i' v
  end.

(** [make([]T, n)]: [n] zero values. *)
Definition make {A : Type} (zero : A) (n : Z) : list A :=
  repeat zero (Z.to_nat n).

(** ** Package [client]: the proposal messages *)

Module client.
Section Messages.
Context {wire : Wire} {wallet : Wallet} {channel : Channel}.

Record ChannelProposal : Type := {
  ChallengeDuration : Z;
  Nonce : option Z;
  ParticipantAddr : Address;
  AppDef : Address;
  InitData : Data;
  InitBals : Allocation;
  Parts : list Address
}.

(** [var m ChannelProposal] *)
Definition ChannelProposal_zero : ChannelProposal :=
  {| ChallengeDuration := 0; Nonce := None; ParticipantAddr := Address_nil;
     AppDef := Address_nil; InitData := Data_nil; InitBals := Allocation_nil;
     Parts := [] |}.

Definition set_ChallengeDuration (v : Z) (c : ChannelProposal) :=
  {| ChallengeDuration := v; Nonce := Nonce c;
     ParticipantAddr := ParticipantAddr c; AppDef := AppDef c;
     InitData := InitData c; InitBals := InitBals c; Parts := Parts c |}.
Definition set_Nonce (v : option Z) (c : ChannelProposal) :=
  {| ChallengeDuration := ChallengeDuration c; Nonce := v;
     ParticipantAddr := ParticipantAddr c; AppDef := AppDef c;
     InitData := InitData c; InitBals := InitBals c; Parts := Parts c |}.
Definition set_ParticipantAddr (v : Address) (c : ChannelProposal) :=
  {| ChallengeDuration := ChallengeDuration c; Nonce := Nonce c;
     ParticipantAddr := v; AppDef := AppDef c;
     InitData := InitData c; InitBals := InitBals c; Parts := Parts c |}.
Definition set_AppDef (v : Address) (c : ChannelProposal) :=
  {| ChallengeDuration := ChallengeDuration c; Nonce := Nonce c;
     ParticipantAddr := ParticipantAddr c; AppDef := v;
     InitData := InitData c; InitBals := InitBals c; Parts := Parts c |}.
Definition set_InitData (v : Data) (c : ChannelProposal) :=
  {| ChallengeDuration := ChallengeDuration c; Nonce := Nonce c;
     ParticipantAddr := ParticipantAddr c; AppDef := AppDef c;
     InitData := v; InitBals := InitBals c; Parts := Parts c |}.
Definition set_InitBals (v : Allocation) (c : ChannelProposal) :=
  {| ChallengeDuration := ChallengeDuration c; Nonce := Nonce c;
     ParticipantAddr := ParticipantAddr c; AppDef := AppDef c;
     InitData := InitData c; InitBals := v; Parts := Parts c |}.
Definition set_Parts (v : list Address) (c : ChannelProposal) :=
  {| ChallengeDuration := ChallengeDuration c; Nonce := Nonce c;
     ParticipantAddr := ParticipantAddr c; AppDef := AppDef c;
     InitData := InitData c; InitBals := InitBals c; Parts := v |}.

(** The loop [for i := range c.Parts] of [Encode], entered at index [i] with
    [parts] the participants from [i] on. *)
Fixpoint encodeParts (i : Z) (parts : list Address) : Enc :=
  fun w =>
    match parts with
    | [] => (w, None)
    | a :: parts' =>
        match Address_Encode a w with
        | (w', Some _) =>
            (w', Some (Errorf "error encoding participant %d" [i]))
        | (w', None) => encodeParts (i + 1) parts' w'
        end
    end.

(** [func (c ChannelProposal) Encode(w io.Writer) error] *)
Definition ChannelProposal_Encode (c : ChannelProposal) : Enc :=
  (* wire.Encode(w, c.ChallengeDuration, c.Nonce) *)
  Encode_uint64 (ChallengeDuration c) ;; Encode_bigInt (Nonce c) ;;
  (* perunio.Encode(w, c.ParticipantAddr, c.AppDef, c.InitData, c.InitBals) *)
  Address_Encode (ParticipantAddr c) ;; Address_Encode (AppDef c) ;;
  Data_Encode (InitData c) ;; Allocation_Encode (InitBals c) ;;
  fun w =>
    let len := Z.of_nat (List.length (Parts c)) in
    if len >? math.MaxInt32 then
      (w, Some (Errorf "expected maximum number of participants %d, got %d"
                       [math.MaxInt32; len]))
    else
      let numParts := int32 len in
      (Encode_int32 numParts ;; encodeParts 0 (Parts c)) w.

(** The loop [for i := 0; i < len(c.Parts); i++] of [Decode], entered at
    index [i] with [n] iterations to go. *)
Fixpoint decodeParts (n i : nat) (parts : list Address) (r : Reader)
  : list Address * Reader * option error :=
  match n with
  | O => (parts, r, None)
  | S n' =>
      let '(a, r, err) := DecodeAddress r in
      let parts := set_index parts i a in
      iferr err ret (parts, r);
      decodeParts n' (S i) parts r
  end.

(** [func (c *ChannelProposal) Decode(r io.Reader) (err error)] *)
Definition ChannelProposal_Decode (c : ChannelProposal) (r : Reader)
  : ChannelProposal * Reader * option error :=
  (* wire.Decode(r, &c.ChallengeDuration, &c.Nonce) *)
  let '(v, r, err) := Decode_uint64 (ChallengeDuration c) r in
  let c := set_ChallengeDuration v c in
  iferr err ret (c, r);
  let '(v, r, err) := Decode_bigInt (Nonce c) r in
  let c := set_Nonce v c in
  iferr err ret (c, r);
  let '(v, r, err) := DecodeAddress r in
  let c := set_ParticipantAddr v c in
  iferr err ret (c, r);
  let '(v, r, err) := DecodeAddress r in
  let c := set_AppDef v c in
  iferr err ret (c, r);
  let '(app, err) := AppFromDefinition (AppDef c) in
  iferr err ret (c, r);
  let '(v, r, err) := DecodeData app r in
  let c := set_InitData v c in
  iferr err ret (c, r);
  (* c.InitBals = &channel.Allocation{}; perunio.Decode(r, c.InitBals) *)
  let '(v, r, err) := Allocation_Decode Allocation_new r in
  let c := set_InitBals v c in
  iferr err ret (c, r);
  (* var numParts int32 *)
  let '(numParts, r, err) := Decode_int32 0 r in
  iferr err ret (c, r);
  if numParts <? 2 then
    (c, r, Some (Errorf "expected at least 2 participants, got %d" [numParts]))
  else
    let c := set_Parts (make Address_nil numParts) c in
    let '(parts, r, err) := decodeParts (List.length (Parts c)) 0 (Parts c) r in
    (set_Parts parts c, r, err).

Record ChannelProposalAcc : Type := {
  Acc_SessID : SessionID;
  Acc_ParticipantAddr : Address
}.

(** [var m ChannelProposalAcc]: an array of 32 zero bytes and a nil
    address. *)
Definition ChannelProposalAcc_zero : ChannelProposalAcc :=
  {| Acc_SessID := repeat x00 32; Acc_ParticipantAddr := Address_nil |}.

(** [func (acc ChannelProposalAcc) Encode(w io.Writer) error] *)
Definition ChannelProposalAcc_Encode (acc : ChannelProposalAcc) : Enc :=
  fun w =>
    match Encode_bytes32 (Acc_SessID acc) w with
    | (w, Some err) => (w, Some (WithMessage err "SID encoding"))
    | (w, None) =>
        match Address_Encode (Acc_ParticipantAddr acc) w with
        | (w, Some err) =>
            (w, Some (WithMessage err "participant address encoding"))
        | (w, None) => (w, None)
        end
    end.

(** [func (acc *ChannelProposalAcc) Decode(r io.Reader) (err error)] *)
Definition ChannelProposalAcc_Decode (acc : ChannelProposalAcc) (r : Reader)
  : ChannelProposalAcc * Reader * option error :=
  let '(v, r, err) := Decode_bytes32 (Acc_SessID acc) r in
  let acc := {| Acc_SessID := v;
                Acc_ParticipantAddr := Acc_ParticipantAddr acc |} in
  match err with
  | Some err => (acc, r, Some (WithMessage err "SID decoding"))
  | None =>
      let '(v, r, err) := DecodeAddress r in
      let acc := {| Acc_SessID := Acc_SessID acc;
                    Acc_ParticipantAddr := v |} in
      match err with
      | Some err =>
          (acc, r, Some (WithMessage err "participant address decoding"))
      | None => (acc, r, None)
      end
  end.

Record ChannelProposalRej : Type := {
  Rej_SessID : SessionID;
  Rej_Reason : string
}.

(** [var m ChannelProposalRej] *)
Definition ChannelProposalRej_zero : ChannelProposalRej :=
  {| Rej_SessID := repeat x00 32; Rej_Reason := "" |}.

(** [func (rej ChannelProposalRej) Encode(w io.Writer) error] *)
Definition ChannelProposalRej_Encode (rej : ChannelProposalRej) : Enc :=
  Encode_bytes32 (Rej_SessID rej) ;; Encode_string (Rej_Reason rej).

(** [func (rej *ChannelProposalRej) Decode(r io.Reader) error] *)
Definition ChannelProposalRej_Decode (rej : ChannelProposalRej) (r : Reader)
  : ChannelProposalRej * Reader * option error :=
  let '(v, r, err) := Decode_bytes32 (Rej_SessID rej) r in
  let rej := {| Rej_SessID := v; Rej_Reason := Rej_Reason rej |} in
  iferr err ret (rej, r);
  let '(v, r, err) := Decode_string (Rej_Reason rej) r in
  let rej := {| Rej_SessID := Rej_SessID rej; Rej_Reason := v |} in
  (rej, r, err).

(** *** Registration with package [msg] *)

(** [msg.Type], for the three messages of this file. *)
Inductive msg_Type : Type :=
| msg_ChannelProposal
| msg_ChannelProposalAcc
| msg_ChannelProposalRej.

(** [msg.Msg]: what the decoders return, a pointer to one of the three
    message structs. *)
Inductive Msg : Type :=
| MsgChannelProposal (m : ChannelProposal)
| MsgChannelProposalAcc (m : ChannelProposalAcc)
| MsgChannelProposalRej (m : ChannelProposalRej).

Definition Type_ (m : Msg) : msg_Type :=
  match m with
  | MsgChannelProposal _ => msg_ChannelProposal
  | MsgChannelProposalAcc _ => msg_ChannelProposalAcc
  | MsgChannelProposalRej _ => msg_ChannelProposalRej
  end.

(** The three function literals of [init]: [var m T; return &m, m.Decode(r)].
    The first result is a pointer to [m], so the caller sees [m] as [Decode]
    left it. *)
Definition decodeChannelProposal : Dec Msg :=
  fun r =>
    let '(m, r, err) := ChannelProposal_Decode ChannelProposal_zero r in
    (MsgChannelProposal m, r, err).

Definition decodeChannelProposalAcc : Dec Msg :=
  fun r =>
    let '(m, r, err) := ChannelProposalAcc_Decode ChannelProposalAcc_zero r in
    (MsgChannelProposalAcc m, r, err).

Definition decodeChannelProposalRej : Dec Msg :=
  fun r =>
    let '(m, r, err) := ChannelProposalRej_Decode ChannelProposalRej_zero r in
    (MsgChannelProposalRej m, r, err).

(** [init]: the decoders registered with [msg.RegisterDecoder], by type. *)
Definition init (t : msg_Type) : Dec Msg :=
  match t with
  | msg_ChannelProposal => decodeChannelProposal
  | msg_ChannelProposalAcc => decodeChannelProposalAcc
  | msg_ChannelProposalRej => decodeChannelProposalRej
  end.

End Messages.
End client.

(** ** Package [channel]: the global backend and the bound constants *)

Module channel.

Section Backend.
(** The types of the arguments and results, [*Params], [*State], [ID],
    [Sig], [wallet.Account] and [wallet.Address]; their values include the
    nil that [TestGlobalBackend] passes. *)
Variables Params State ID Sig Account Addr : Type.
(** What the methods of a backend may read and change (for the mock of the
    test: the record of its [WrapMock]). *)
Variable World : Type.

(** The interface [Backend], as [mockBackend] implements it. *)
Record Backend : Type := {
  Backend_ChannelID : Params -> World -> ID * World;
  Backend_Sign :
    Account -> Params -> State -> World -> Sig * option error * World;
  Backend_Verify :
    Addr -> Params -> State -> Sig -> World -> bool * option error * World
}.

(** Modelled from the spec: the package-level variable holding the active
    backend ([None] until one is installed) and the functions [SetBackend],
    [ChannelID], [Sign] and [Verify] of [channel/backend.go], which is not
    among the embedded sources.  Spec 4.1: [SetBackend] installs its
    argument as the sole active backend, replacing any previous one; the
    three functions are pure delegations to the installed backend, and
    calling one before a backend is installed fails fast (here: no
    result). *)
Definition SetBackend (b : Backend) (backend : option Backend)
  : option Backend := Some b.

(** Modelled from the spec: [ChannelID] of [channel/backend.go], the
    delegation to the installed backend (spec 4.1); no result when none is
    installed. *)
Definition ChannelID (backend : option Backend) (p : Params) (w : World)
  : option (ID * World) :=
  match backend with
  | Some b => Some (Backend_ChannelID b p w)
  | None => None
  end.

(** Modelled from the spec: [Sign] of [channel/backend.go], likewise. *)
Definition Sign (backend : option Backend) (a : Account) (p : Params)
  (s : State) (w : World) : option (Sig * option error * World) :=
  match backend with
  | Some b => Some (Backend_Sign b a p s w)
  | None => None
  end.

(** Modelled from the spec: [Verify] of [channel/backend.go], likewise. *)
Definition Verify (backend : option Backend) (a : Addr) (p : Params)
  (s : State) (sig : Sig) (w : World)
  : option (bool * option error * World) :=
  match backend with
  | Some b => Some (Backend_Verify b a p s sig w)
  | None => None
  end.

End Backend.

Arguments Backend_ChannelID {Params State ID Sig Account Addr World}.
Arguments Backend_Sign {Params State ID Sig Account Addr World}.
Arguments Backend_Verify {Params State ID Sig Account Addr World}.
Arguments SetBackend {Params State ID Sig Account Addr World}.
Arguments ChannelID {Params State ID Sig Account Addr World}.
Arguments Sign {Params State ID Sig Account Addr World}.
Arguments Verify {Params State ID Sig Account Addr World}.

Section Recording.
Variables Params State ID Sig Account Addr World : Type.

(** A call received by a backend, with its arguments. *)
Inductive Call : Type :=
| CallChannelID (p : Params)
| CallSign (a : Account) (p : Params) (s : State)
| CallVerify (a : Addr) (p : Params) (s : State) (sig : Sig).

(** A backend that appends every call it receives to a log before it hands
    the call to [b]: the role of [m.AssertWrapped()] in the methods of
    [mockBackend]. *)
Definition recording (b : Backend Params State ID Sig Account Addr World)
  : Backend Params State ID Sig Account Addr (World * list Call) :=
  {| Backend_ChannelID := fun p '(w, log) =>
       let '(id, w) := Backend_ChannelID b p w in
       (id, (w, log ++ [CallChannelID p]));
     Backend_Sign := fun a p s '(w, log) =>
       let '(sig, err, w) := Backend_Sign b a p s w in
       (sig, err, (w, log ++ [CallSign a p s]));
     Backend_Verify := fun a p s sig '(w, log) =>
       let '(ok, err, w) := Backend_Verify b a p s sig w in
       (ok, err, (w, log ++ [CallVerify a p s sig])) |}.

End Recording.

Arguments CallChannelID {Params State Sig Account Addr}.
Arguments CallSign {Params State Sig Account Addr}.
Arguments CallVerify {Params State Sig Account Addr}.
Arguments recording {Params State ID Sig Account Addr World}.

(** [mockBackend] of the test: [ChannelID] returns [Zero], [Sign] returns
    [(nil, nil)], [Verify] returns [(false, nil)]; the world is the number
    of calls its [WrapMock] has seen.  Pointers and interfaces are
    [option]s, [None] the nil that the test passes. *)
Definition mockBackend
  : Backend (option unit) (option unit) (list byte) (option (list byte))
            (option unit) (option unit) nat :=
  {| Backend_ChannelID := fun _ n => (repeat x00 32, S n);
     Backend_Sign := fun _ _ _ n => (None, None, S n);
     Backend_Verify := fun _ _ _ _ n => (false, None, S n) |}.

(** [b.AssertCalled()] of [test.WrapMock] (package [pkg/test] is not among
    the embedded sources): passes when a call was recorded since the last
    check, and clears the record. *)
Definition AssertCalled (n : nat) : bool * nat := (negb (Nat.eqb n 0), O).

(** [TestGlobalBackend]: [true] when the test runs to its end with every
    assertion passing. *)
Definition TestGlobalBackend : bool :=
  let backend := SetBackend mockBackend None in
  match ChannelID backend None O with
  | None => false
  | Some (_, w) =>
      let '(ok1, w) := AssertCalled w in
      match Sign backend None None None w with
      | None => false
      | Some (_, _, w) =>
          let '(ok2, w) := AssertCalled w in
          match Verify backend None None None None w with
          | None => false
          | Some (_, _, w) =>
              let '(ok3, _) := AssertCalled w in
              ok1 && ok2 && ok3
          end
      end
  end.

(** The bound constants [MaxNumAssets], [MaxNumParts] and
    [MaxNumSubAllocations] are declared outside the embedded sources (and
    the spec gives them no value); [TestMaxConstants] is the code that
    constrains them. *)
Record BoundConstants : Type := {
  MaxNumAssets : Z;
  MaxNumParts : Z;
  MaxNumSubAllocations : Z
}.

(** [assert.LessOrEqual(t, e1, e2, msg)] *)
Definition assert_LessOrEqual (e1 e2 : Z) : bool := e1 <=? e2.

(** [TestMaxConstants]: the test passes when none of its assertions
    fails. *)
Definition TestMaxConstants (k : BoundConstants) : bool :=
  assert_LessOrEqual (MaxNumAssets k) math.MaxUint16 &&
  assert_LessOrEqual (MaxNumParts k) math.MaxUint16 &&
  assert_LessOrEqual (MaxNumSubAllocations k) math.MaxUint16.

End channel.

(** ** A sample instance of the packages below the messages

    The theorems on the messages hold for every implementation of [Wire],
    [Wallet] and [Channel].  The instance of this module makes them
    concrete: it is what the examples are evaluated on. *)

Module Sample.

Definition byte_of_Z (z : Z) : byte :=
  match Byte.of_N (Z.to_N (z mod 256)) with
  | Some b => b
  | None => x00
  end.

Definition Z_of_byte (b : byte) : Z := Z.of_N (Byte.to_N b).

(** [n] bytes of [z], most significant first (network byte order). *)
Fixpoint PutUint (n : nat) (z : Z) : list byte :=
  match n with
  | O => []
  | S n' => byte_of_Z (Z.shiftr z (8 * Z.of_nat n')) :: PutUint n' z
  end.

(** The unsigned number whose bytes are [bs], most significant first. *)
Definition Uint (bs : list byte) : Z :=
  fold_left (fun acc b => acc * 256 + Z_of_byte b) bs 0.

(** [io.ReadFull] on a buffer of [n] bytes: the bytes read and the rest of
    the reader, or nothing when the reader runs out. *)
Fixpoint ReadFull (n : nat) (r : Reader) : option (list byte * Reader) :=
  match n with
  | O => Some ([], r)
  | S n' =>
      match r with
      | [] => None
      | b :: r' =>
          match ReadFull n' r' with
          | Some (bs, r'') => Some (b :: bs, r'')
          | None => None
          end
      end
  end.

Definition ErrUnexpectedEOF : error := fundamental "unexpected EOF".

Definition write (bs : list byte) : Enc := fun w => (w ++ bs, None).

Definition fail (msg : string) : Enc := fun w => (w, Some (fundamental msg)).

(** A decoder that reads [n] bytes and converts them; when the reader runs
    out it has consumed what there was and the pointee keeps [old]. *)
Definition readFixed {A : Type} (n : nat) (conv : list byte -> A) (old : A)
  : Dec A :=
  fun r =>
    match ReadFull n r with
    | Some (bs, r') => (conv bs, r', None)
    | None => (old, [], Some ErrUnexpectedEOF)
    end.

(** The number of bytes of the magnitude of [z > 0]. *)
Definition magnitude_len (z : Z) : nat :=
  Z.to_nat ((Z.log2 z + 8) / 8).

(** Modelled from the spec: the variable-length big integer of spec 6, as a
    length byte followed by the magnitude.  Where Go would panic (a nil
    [*big.Int]) the codec returns an error. *)
Definition encode_bigInt (v : option Z) : Enc :=
  match v with
  | None => fail "nil big.Int"
  | Some z =>
      if z <? 0 then fail "negative big.Int"
      else if z =? 0 then write [x00]
      else if (255 <? magnitude_len z)%nat then fail "big.Int too long"
      else write (byte_of_Z (Z.of_nat (magnitude_len z))
                  :: PutUint (magnitude_len z) z)
  end.

Definition decode_bigInt (old : option Z) : Dec (option Z) :=
  fun r =>
    match r with
    | [] => (old, [], Some (fundamental "EOF"))
    | len :: r' =>
        readFixed (Z.to_nat (Z_of_byte len)) (fun bs => Some (Uint bs)) old r'
    end.

(** Modelled from the spec: the length-prefixed string of spec 6, with a
    16-bit length. *)
Definition encode_string (s : string) : Enc :=
  let bs := list_byte_of_string s in
  if 65535 <? Z.of_nat (List.length bs) then fail "string too long"
  else write (PutUint 2 (Z.of_nat (List.length bs)) ++ bs).

Definition decode_string (old : string) : Dec string :=
  fun r =>
    match ReadFull 2 r with
    | None => (old, [], Some ErrUnexpectedEOF)
    | Some (len, r') =>
        readFixed (Z.to_nat (Uint len)) string_of_list_byte old r'
    end.

(** Modelled from the spec: the codecs of package [wire], after the table
    of spec 6 (binary, network byte order): a fixed 64-bit unsigned
    integer, a variable-length big integer, a signed 32-bit integer, 32 raw
    bytes and a length-prefixed string. *)
#[export] Instance wire : Wire := {|
  Encode_uint64 := fun v => write (PutUint 8 v);
  Decode_uint64 := readFixed 8 Uint;
  Encode_bigInt := encode_bigInt;
  Decode_bigInt := decode_bigInt;
  Encode_int32 := fun v => write (PutUint 4 v);
  Decode_int32 := readFixed 4 (fun bs => int32 (Uint bs));
  Encode_bytes32 := write;
  Decode_bytes32 := readFixed 32 (fun bs => bs);
  Encode_string := encode_string;
  Decode_string := decode_string
|}.

(** Modelled from the spec: a wallet backend (spec 6: an address has its
    own self-delimiting encoding).  An address is a byte string, written as
    it is when it has 20 bytes and refused otherwise; nil is the empty
    one. *)
Definition encode_address (a : list byte) : Enc :=
  if (List.length a =? 20)%nat then write a
  else fail "address must have 20 bytes".

#[export] Instance wallet : Wallet := {|
  Address := list byte;
  Address_nil := [];
  Address_Encode := encode_address;
  DecodeAddress := readFixed 20 (fun bs => bs) []
|}.

(** Modelled from the spec: package [channel] with one registered
    application (spec 6: [AppFromDefinition(address) -> (App, error)],
    [App.DecodeData], and the allocation's own encoding).  The application
    lives at the address of twenty bytes [0x0a]; its data is a byte string
    behind a length byte.  An allocation is a list of balances, each a
    64-bit unsigned integer, behind a count byte; [None] is the nil
    pointer. *)
Definition appAddress : list byte := repeat x0a 20.

Definition appFromDefinition (a : list byte) : unit * option error :=
  if list_eq_dec Byte.byte_eq_dec a appAddress then (tt, None)
  else (tt, Some (fundamental "unknown app")).

Definition encode_data (d : list byte) : Enc :=
  if (255 <? List.length d)%nat then fail "data too long"
  else write (byte_of_Z (Z.of_nat (List.length d)) :: d).

Definition decode_data (_ : unit) : Dec (list byte) :=
  fun r =>
    match r with
    | [] => ([], [], Some (fundamental "EOF"))
    | len :: r' => readFixed (Z.to_nat (Z_of_byte len)) (fun bs => bs) [] r'
    end.

Definition encode_allocation (a : option (list Z)) : Enc :=
  match a with
  | None => fail "nil allocation"
  | Some bals =>
      if (255 <? List.length bals)%nat then fail "too many balances"
      else write (byte_of_Z (Z.of_nat (List.length bals))
                  :: flat_map (PutUint 8) bals)
  end.

Fixpoint decode_balances (n : nat) (r : Reader)
  : list Z * Reader * option error :=
  match n with
  | O => ([], r, None)
  | S n' =>
      match ReadFull 8 r with
      | None => ([], [], Some ErrUnexpectedEOF)
      | Some (bs, r') =>
          let '(bals, r'', err) := decode_balances n' r' in
          (Uint bs :: bals, r'', err)
      end
  end.

Definition decode_allocation (old : option (list Z)) : Dec (option (list Z)) :=
  fun r =>
    match r with
    | [] => (old, [], Some (fundamental "EOF"))
    | n :: r' =>
        let '(bals, r'', err) := decode_balances (Z.to_nat (Z_of_byte n)) r' in
        (Some bals, r'', err)
    end.

#[export] Instance channel : Channel := {|
  Data := list byte;
  Data_nil := [];
  Data_Encode := encode_data;
  App := unit;
  AppFromDefinition := appFromDefinition;
  DecodeData := decode_data;
  Allocation := option (list Z);
  Allocation_nil := None;
  Allocation_new := Some [];
  Allocation_Encode := encode_allocation;
  Allocation_Decode := decode_allocation
|}.

(** Two participants and the proposal of the happy path of spec 8:
    [ChallengeDuration = 100], [Nonce = 42], two participants. *)
Definition alice : list byte := repeat x01 20.
Definition bob : list byte := repeat x02 20.

Definition proposal : client.ChannelProposal :=
  {| client.ChallengeDuration := 100;
     client.Nonce := Some 42;
     client.ParticipantAddr := alice;
     client.AppDef := appAddress;
     client.InitData := [x07];
     client.InitBals := Some [5; 6];
     client.Parts := [alice; bob] |}.

(** The same proposal with the participants [parts]. *)
Definition proposalOf (parts : list (list byte)) : client.ChannelProposal :=
  client.set_Parts parts proposal.

Definition sid : SessionID := repeat x2a 32.

Definition accept : client.ChannelProposalAcc :=
  {| client.Acc_SessID := sid; client.Acc_ParticipantAddr := bob |}.

Definition reject : client.ChannelProposalRej :=
  {| client.Rej_SessID := sid; client.Rej_Reason := "no" |}.

(** What [Encode] writes for [proposal] before the participant count. *)
Definition proposalHeader : list byte :=
  PutUint 8 100 ++ [x01; x2a] ++ alice ++ appAddress ++ [x01; x07]
  ++ [x02] ++ PutUint 8 5 ++ PutUint 8 6.

(** More participants than an [int32] counts. *)
Definition tooMany : list (list byte) := repeat alice (Z.to_nat 2147483648).

(** The header of [proposal] followed by the count 1 and one address. *)
Definition loneBytes : list byte := proposalHeader ++ PutUint 4 1 ++ alice.

(** The start of a proposal whose [AppDef] is [bob], where no application
    lives, followed by application data. *)
Definition unknownAppBytes : list byte :=
  PutUint 8 100 ++ [x01; x2a] ++ alice ++ bob ++ [x01; x07].

(** The bytes of [proposal] cut after the count byte of the allocation. *)
Definition truncatedBytes : list byte :=
  PutUint 8 100 ++ [x01; x2a] ++ alice ++ appAddress ++ [x01; x07] ++ [x02].

(** What [Decode] leaves in a zero receiver on [truncatedBytes]. *)
Definition truncatedProposal : client.ChannelProposal :=
  {| client.ChallengeDuration := 100;
     client.Nonce := Some 42;
     client.ParticipantAddr := alice;
     client.AppDef := appAddress;
     client.InitData := [x07];
     client.InitBals := Some [];
     client.Parts := [] |}.

(** An accept message whose address is nil. *)
Definition nilAccept : client.ChannelProposalAcc :=
  {| client.Acc_SessID := sid; client.Acc_ParticipantAddr := [] |}.

(** What [Encode] writes for [proposal]. *)
Definition proposalBytes : list byte :=
  proposalHeader ++ PutUint 4 2 ++ alice ++ bob.


(** The proposals of the sample instance whose fields are in the range of
    their codecs. *)
Definition well_formed (p : client.ChannelProposal) : Prop :=
  0 <= client.ChallengeDuration p < 2 ^ 64 /\
  (exists z, client.Nonce p = Some z /\ 0 <= z < 2 ^ 2040) /\
  List.length (client.ParticipantAddr p) = 20%nat /\
  client.AppDef p = appAddress /\
  (List.length (client.InitData p) <= 255)%nat /\
  (exists bals, client.InitBals p = Some bals /\
                (List.length bals <= 255)%nat /\
                Forall (fun b => 0 <= b < 2 ^ 64) bals) /\
  Forall (fun a => List.length a = 20%nat) (client.Parts p).

End Sample.

(** ** The sample instance with canonical decoders

    The decoders of [Sample] accept some byte strings that its encoders
    never write (a big integer with leading zero bytes).  The decoders of
    this module refuse them: each encodes what it decoded and compares. *)

Module Strict.

(** [dec], followed by the check that the bytes consumed are the ones
    that [enc] writes for the decoded value. *)
Definition strict {A : Type} (enc : A -> Enc) (dec : Dec A) (old : A)
  : Dec A :=
  fun r =>
    match dec r with
    | (v, r', None) =>
        match enc v [] with
        | (bs, None) =>
            if list_eq_dec Byte.byte_eq_dec r (bs ++ r') then (v, r', None)
            else (old, r', Some (fundamental "encoding is not canonical"))
        | (_, Some e) => (old, r', Some e)
        end
    | failure => failure
    end.

#[export] Instance wire : Wire := {|
  Encode_uint64 := @Encode_uint64 Sample.wire;
  Decode_uint64 := fun old =>
    strict (@Encode_uint64 Sample.wire) (@Decode_uint64 Sample.wire old) old;
  Encode_bigInt := @Encode_bigInt Sample.wire;
  Decode_bigInt := fun old =>
    strict (@Encode_bigInt Sample.wire) (@Decode_bigInt Sample.wire old) old;
  Encode_int32 := @Encode_int32 Sample.wire;
  Decode_int32 := fun old =>
    strict (@Encode_int32 Sample.wire) (@Decode_int32 Sample.wire old) old;
  Encode_bytes32 := @Encode_bytes32 Sample.wire;
  Decode_bytes32 := fun old =>
    strict (@Encode_bytes32 Sample.wire) (@Decode_bytes32 Sample.wire old) old;
  Encode_string := @Encode_string Sample.wire;
  Decode_string := fun old =>
    strict (@Encode_string Sample.wire) (@Decode_string Sample.wire old) old
|}.

#[export] Instance wallet : Wallet := {|
  Address := list byte;
  Address_nil := [];
  Address_Encode := Sample.encode_address;
  DecodeAddress :=
    strict Sample.encode_address (@DecodeAddress Sample.wallet) []
|}.

#[export] Instance channel : @Channel wallet := {|
  Data := list byte;
  Data_nil := [];
  Data_Encode := Sample.encode_data;
  App := unit;
  AppFromDefinition := Sample.appFromDefinition;
  DecodeData := fun app =>
    strict Sample.encode_data (Sample.decode_data app) [];
  Allocation := option (list Z);
  Allocation_nil := None;
  Allocation_new := Some [];
  Allocation_Encode := Sample.encode_allocation;
  Allocation_Decode := fun old =>
    strict Sample.encode_allocation (Sample.decode_allocation old) old
|}.

(** The messages of [Sample], over the instance of this module. *)
Definition proposal : client.ChannelProposal :=
  {| client.ChallengeDuration := 100;
     client.Nonce := Some 42;
     client.ParticipantAddr := Sample.alice;
     client.AppDef := Sample.appAddress;
     client.InitData := [x07];
     client.InitBals := Some [5; 6];
     client.Parts := [Sample.alice; Sample.bob] |}.

Definition accept : client.ChannelProposalAcc :=
  {| client.Acc_SessID := Sample.sid;
     client.Acc_ParticipantAddr := Sample.bob |}.

Definition reject : client.ChannelProposalRej :=
  {| client.Rej_SessID := Sample.sid; client.Rej_Reason := "no" |}.

(** The bytes of [accept] and of [reject]. *)
Definition acceptBytes : list byte := Sample.sid ++ Sample.bob.

Definition rejectBytes : list byte := Sample.sid ++ [x00; x02; x6e; x6f].

End Strict.

(** ** Specification vocabulary *)

(** [e] succeeds on every writer and appends exactly [bs]. *)
Definition encodes (e : Enc) (bs : list byte) : Prop :=
  forall w, e w = (w ++ bs, None).

(** [d] succeeds on every reader that starts with [bs], consumes exactly
    [bs] and returns [a]. *)
Definition decodes {A : Type} (d : Dec A) (bs : list byte) (a : A) : Prop :=
  forall rest, d (bs ++ rest) = (a, rest, None).

(** The value [a] is valid for a codec: it is encoded to some bytes from
    which it is decoded again. *)
Definition roundtrips {A : Type} (enc : A -> Enc) (dec : Dec A) (a : A)
  : Prop :=
  exists bs, encodes (enc a) bs /\ decodes dec bs a.

(** The same for a decoder that decodes into a pointee, whatever the
    pointee held. *)
Definition roundtrips_into {A : Type} (enc : A -> Enc) (dec : A -> Dec A)
  (a : A) : Prop :=
  exists bs, encodes (enc a) bs /\ forall old, decodes (dec old) bs a.

(** The codec is canonical: whenever [dec] succeeds, the bytes it consumed
    are the ones [enc] writes for the value it returned. *)
Definition canonical {A : Type} (enc : A -> Enc) (dec : Dec A) : Prop :=
  forall r v r',
    dec r = (v, r', None) -> exists bs, r = bs ++ r' /\ encodes (enc v) bs.

Section Vocabulary.
Import client.
Context {wire : Wire} {wallet : Wallet} {channel : Channel}.

(** Every codec below the messages is canonical, and what is decoded as an
    [int32] is in the range of the type. *)
Definition codecs_canonical : Prop :=
  (forall old, canonical Encode_uint64 (Decode_uint64 old)) /\
  (forall old, canonical Encode_bigInt (Decode_bigInt old)) /\
  (forall old, canonical Encode_int32 (Decode_int32 old)) /\
  (forall old, canonical Encode_bytes32 (Decode_bytes32 old)) /\
  (forall old, canonical Encode_string (Decode_string old)) /\
  canonical Address_Encode DecodeAddress /\
  (forall app, canonical Data_Encode (DecodeData app)) /\
  (forall old, canonical Allocation_Encode (Allocation_Decode old)) /\
  (forall old r n r',
      Decode_int32 old r = (n, r', None) -> n <= math.MaxInt32).

(** [len(c.Parts)] *)
Definition numParts (c : ChannelProposal) : Z :=
  Z.of_nat (List.length (Parts c)).

(** All sub-fields of a proposal are valid: every field round-trips
    through the codec that [Encode] and [Decode] use for it, [AppDef]
    resolves to an application whose decoder reads [InitData] back, and the
    participant count round-trips as an [int32]. *)
Definition fields_valid (p : ChannelProposal) : Prop :=
  roundtrips_into Encode_uint64 Decode_uint64 (ChallengeDuration p) /\
  roundtrips_into Encode_bigInt Decode_bigInt (Nonce p) /\
  roundtrips Address_Encode DecodeAddress (ParticipantAddr p) /\
  roundtrips Address_Encode DecodeAddress (AppDef p) /\
  (exists app, AppFromDefinition (AppDef p) = (app, None) /\
               roundtrips Data_Encode (DecodeData app) (InitData p)) /\
  roundtrips Allocation_Encode (Allocation_Decode Allocation_new)
             (InitBals p) /\
  roundtrips Encode_int32 (Decode_int32 0) (int32 (numParts p)) /\
  Forall (roundtrips Address_Encode DecodeAddress) (Parts p).

Definition acc_valid (acc : ChannelProposalAcc) : Prop :=
  roundtrips_into Encode_bytes32 Decode_bytes32 (Acc_SessID acc) /\
  roundtrips Address_Encode DecodeAddress (Acc_ParticipantAddr acc).

Definition rej_valid (rej : ChannelProposalRej) : Prop :=
  roundtrips_into Encode_bytes32 Decode_bytes32 (Rej_SessID rej) /\
  roundtrips_into Encode_string Decode_string (Rej_Reason rej).

(** The first two statements of [ChannelProposal_Encode]: the fields
    written before the participant count. *)
Definition encodeHeader (c : ChannelProposal) : Enc :=
  Encode_uint64 (ChallengeDuration c) ;; Encode_bigInt (Nonce c) ;;
  Address_Encode (ParticipantAddr c) ;; Address_Encode (AppDef c) ;;
  Data_Encode (InitData c) ;; Allocation_Encode (InitBals c).

(** [Decode] reads the fields before the participant count without error,
    from [r] to [r'], and they make the receiver [c] into [c']. *)
Definition decodesHeader (c : ChannelProposal) (r : Reader)
  (c' : ChannelProposal) (r' : Reader) : Prop :=
  exists v1 r1 v2 r2 v3 r3 v4 r4 app v5 r5 v6,
    Decode_uint64 (ChallengeDuration c) r = (v1, r1, None) /\
    Decode_bigInt (Nonce c) r1 = (v2, r2, None) /\
    DecodeAddress r2 = (v3, r3, None) /\
    DecodeAddress r3 = (v4, r4, None) /\
    AppFromDefinition v4 = (app, None) /\
    DecodeData app r4 = (v5, r5, None) /\
    Allocation_Decode Allocation_new r5 = (v6, r', None) /\
    c' = {| ChallengeDuration := v1; Nonce := v2; ParticipantAddr := v3;
            AppDef := v4; InitData := v5; InitBals := v6;
            Parts := Parts c |}.

(** The method [Encode] of a [msg.Msg] that holds one of the three
    messages: the call goes to the method of the message held. *)
Definition Msg_Encode (m : Msg) : Enc :=
  match m with
  | MsgChannelProposal p => ChannelProposal_Encode p
  | MsgChannelProposalAcc acc => ChannelProposalAcc_Encode acc
  | MsgChannelProposalRej rej => ChannelProposalRej_Encode rej
  end.

(** The fields of the message held are valid; a proposal has 2 to
    [2^31-1] participants. *)
Definition msg_valid (m : Msg) : Prop :=
  match m with
  | MsgChannelProposal p =>
      fields_valid p /\ 2 <= numParts p <= math.MaxInt32
  | MsgChannelProposalAcc acc => acc_valid acc
  | MsgChannelProposalRej rej => rej_valid rej
  end.

End Vocabulary.

(** ** Lemmas on the building blocks *)

Lemma fmt_d_inj (x y : Z) : fmt_d x = fmt_d y -> x = y.
Proof.
  unfold fmt_d. intros H.
  assert (Hnz : forall z, NilZero.int_of_string
                            (NilZero.string_of_int (Z.to_int z))
                          = Some (Z.to_int z)).
  { intros z. apply NilZero.isi; destruct z; simpl; try discriminate;
      intros E; injection E as E;
      exact (DecimalPos.Unsigned.to_uint_nonnil _ E). }
  apply (f_equal NilZero.int_of_string) in H.
  rewrite !Hnz in H. injection H as H.
  now apply DecimalZ.to_int_inj.
Qed.

Lemma append_empty_r (s : string) : (s ++ "")%string = s.
Proof. induction s as [|ch s IH]; simpl; [reflexivity | now rewrite IH]. Qed.

Lemma int32_small (z : Z) : 0 <= z <= math.MaxInt32 -> int32 z = z.
Proof.
  unfold int32, math.MaxInt32. intros Hz.
  rewrite Z.mod_small; lia.
Qed.

Lemma set_index_app {A : Type} (pre : list A) (x v : A) (tl : list A) :
  set_index (pre ++ x :: tl) (List.length pre) v = pre ++ v :: tl.
Proof.
  induction pre as [|y pre IH]; simpl; [reflexivity | now rewrite IH].
Qed.

Lemma andThen_ok (e1 e2 : Enc) (w w1 : Writer) :
  e1 w = (w1, None) -> (e1 ;; e2) w = e2 w1.
Proof. unfold andThen. now intros ->. Qed.

Lemma andThen_err (e1 e2 : Enc) (w w1 : Writer) (e : error) :
  e1 w = (w1, Some e) -> (e1 ;; e2) w = (w1, Some e).
Proof. unfold andThen. now intros ->. Qed.

Lemma encodes_andThen (e1 e2 : Enc) (b1 b2 : list byte) :
  encodes e1 b1 -> encodes e2 b2 -> encodes (e1 ;; e2) (b1 ++ b2).
Proof.
  intros H1 H2 w. rewrite (andThen_ok _ _ _ _ (H1 w)), H2.
  now rewrite app_assoc.
Qed.

Lemma decodes_app {A : Type} (d : Dec A) (bs rest rest' : list byte) (a : A) :
  decodes d bs a -> d ((bs ++ rest) ++ rest') = (a, rest ++ rest', None).
Proof. intros H. now rewrite <- app_assoc. Qed.

Section ProposalLemmas.
Import client.
Context {wire : Wire} {wallet : Wallet} {channel : Channel}.

(** [Encode] is [encodeHeader] followed by the bound check, the count and
    the participants. *)
Lemma Encode_header (p : ChannelProposal) (w : Writer) :
  ChannelProposal_Encode p w =
  match encodeHeader p w with
  | (w1, Some e) => (w1, Some e)
  | (w1, None) =>
      if numParts p >? math.MaxInt32 then
        (w1, Some (Errorf "expected maximum number of participants %d, got %d"
                          [math.MaxInt32; numParts p]))
      else (Encode_int32 (int32 (numParts p)) ;; encodeParts 0 (Parts p)) w1
  end.
Proof.
  unfold ChannelProposal_Encode, encodeHeader, numParts.
  unfold andThen at 1 2 3 4 5 6 8 9 10 11 12.
  repeat match goal with
         | |- context [match ?f ?x ?y with _ => _ end] =>
             destruct (f x y) as [? [?|]]; try reflexivity
         end.
Qed.

(** After the header, [Decode] reads the count, checks it and reads the
    participants. *)
Lemma Decode_header (c : ChannelProposal) (r : Reader)
  (c' : ChannelProposal) (r' : Reader) :
  decodesHeader c r c' r' ->
  ChannelProposal_Decode c r =
  let '(n, r2, err) := Decode_int32 0 r' in
  match err with
  | Some e => (c', r2, Some e)
  | None =>
      if n <? 2 then
        (c', r2, Some (Errorf "expected at least 2 participants, got %d" [n]))
      else
        let '(parts, r3, err) :=
          decodeParts (List.length (make Address_nil n)) 0
                      (make Address_nil n) r2 in
        (set_Parts parts c', r3, err)
  end.
Proof.
  intros (v1 & r1 & v2 & r2 & v3 & r3 & v4 & r4 & app & v5 & r5 & v6
          & H1 & H2 & H3 & H4 & H5 & H6 & H7 & ->).
  unfold ChannelProposal_Decode.
  rewrite H1; cbn. rewrite H2; cbn. rewrite H3; cbn. rewrite H4; cbn.
  rewrite H5; cbn. rewrite H6; cbn. rewrite H7; cbn.
  destruct (Decode_int32 0 r') as [[n r6] [e|]]; [reflexivity|].
  destruct (n <? 2); [reflexivity|].
  now destruct (decodeParts _ _ _ _) as [[parts r8] err].
Qed.

(** On valid fields the header round-trips, whatever the receiver held. *)
Lemma header_roundtrip (p : ChannelProposal) :
  fields_valid p ->
  exists hdr,
    encodes (encodeHeader p) hdr /\
    forall c rest, decodesHeader c (hdr ++ rest) (set_Parts (Parts c) p) rest.
Proof.
  intros ((b1 & E1 & D1) & (b2 & E2 & D2) & (b3 & E3 & D3) & (b4 & E4 & D4)
          & (app & Happ & b5 & E5 & D5) & (b6 & E6 & D6) & _ & _).
  exists (b1 ++ b2 ++ b3 ++ b4 ++ b5 ++ b6). split.
  - unfold encodeHeader. repeat apply encodes_andThen; assumption.
  - intros c rest. unfold decodesHeader.
    exists (ChallengeDuration p), (b2 ++ b3 ++ b4 ++ b5 ++ b6 ++ rest),
           (Nonce p), (b3 ++ b4 ++ b5 ++ b6 ++ rest),
           (ParticipantAddr p), (b4 ++ b5 ++ b6 ++ rest),
           (AppDef p), (b5 ++ b6 ++ rest), app,
           (InitData p), (b6 ++ rest), (InitBals p).
    rewrite <- !app_assoc.
    repeat split;
      [apply D1 | apply D2 | apply D3 | apply D4 | exact Happ
      | apply D5 | apply D6].
Qed.

(** The two loops over the participants are inverse to each other on valid
    addresses. *)
Lemma parts_roundtrip (parts : list Address) :
  Forall (roundtrips Address_Encode DecodeAddress) parts ->
  exists bs,
    (forall i, encodes (encodeParts i parts) bs) /\
    forall pre tl rest,
      List.length tl = List.length parts ->
      decodeParts (List.length parts) (List.length pre) (pre ++ tl)
                  (bs ++ rest)
      = (pre ++ parts, rest, None).
Proof.
  induction 1 as [|a parts (ba & Ea & Da) _ (bs & Es & Ds)].
  - exists []. split.
    + intros i w. simpl. now rewrite app_nil_r.
    + intros pre [|? ?] rest Hlen; [reflexivity | discriminate].
  - exists (ba ++ bs). split.
    + intros i w. simpl. rewrite Ea, Es. now rewrite app_assoc.
    + intros pre [|t tl] rest Hlen; [discriminate|].
      injection Hlen as Hlen. simpl.
      rewrite <- app_assoc, Da, set_index_app.
      specialize (Ds (pre ++ [a]) tl rest Hlen).
      rewrite length_app, Nat.add_1_r, <- !app_assoc in Ds. exact Ds.
Qed.

End ProposalLemmas.

(** ** The properties of the proposal messages *)

Section ProposalProperties.
Import client.
Context {wire : Wire} {wallet : Wallet} {channel : Channel}.

Lemma make_length (n : nat) :
  make Address_nil (Z.of_nat n) = repeat Address_nil n.
Proof. unfold make. now rewrite Nat2Z.id. Qed.

Lemma proposal_roundtrip (p : ChannelProposal) :
  fields_valid p -> 2 <= numParts p <= math.MaxInt32 ->
  roundtrips_into ChannelProposal_Encode ChannelProposal_Decode p.
Proof.
  intros Hv Hlen.
  destruct (header_roundtrip p Hv) as (hdr & Ehdr & Dhdr).
  destruct Hv as (_ & _ & _ & _ & _ & _ & (b7 & E7 & D7) & Hparts).
  destruct (parts_roundtrip _ Hparts) as (bs & Es & Ds).
  rewrite int32_small in E7, D7 by lia.
  exists (hdr ++ b7 ++ bs). split.
  - intros w. rewrite Encode_header, (Ehdr w).
    replace (numParts p >? math.MaxInt32) with false by (symmetry; lia).
    rewrite int32_small by lia.
    rewrite (andThen_ok _ _ _ _ (E7 _)), Es.
    now rewrite <- !app_assoc.
  - intros old rest. rewrite <- !app_assoc.
    rewrite (Decode_header _ _ _ _ (Dhdr old _)), D7.
    replace (numParts p <? 2) with false by (symmetry; lia).
    unfold numParts. rewrite make_length, repeat_length.
    pose proof (Ds [] (repeat Address_nil (List.length (Parts p))) rest
                   (repeat_length _ _)) as Hd.
    cbn [List.length app] in Hd. rewrite Hd.
    now destruct p.
Qed.

Lemma acc_roundtrip (acc : ChannelProposalAcc) :
  acc_valid acc ->
  roundtrips_into ChannelProposalAcc_Encode ChannelProposalAcc_Decode acc.
Proof.
  intros ((b1 & E1 & D1) & (b2 & E2 & D2)).
  exists (b1 ++ b2). split.
  - intros w. unfold ChannelProposalAcc_Encode.
    now rewrite E1, E2, app_assoc.
  - intros old rest. unfold ChannelProposalAcc_Decode.
    rewrite <- app_assoc, D1; cbn. rewrite D2.
    now destruct acc.
Qed.

Lemma rej_roundtrip (rej : ChannelProposalRej) :
  rej_valid rej ->
  roundtrips_into ChannelProposalRej_Encode ChannelProposalRej_Decode rej.
Proof.
  intros ((b1 & E1 & D1) & (b2 & E2 & D2)).
  exists (b1 ++ b2). split.
  - now apply encodes_andThen.
  - intros old rest. unfold ChannelProposalRej_Decode.
    rewrite <- app_assoc, D1; cbn. rewrite D2.
    now destruct rej.
Qed.

(** C1.  Round trip: a proposal with at least two (and at most [2^31-1])
    participants whose sub-fields are all valid is encoded to bytes from
    which [Decode] rebuilds it, field for field, whatever the receiver held
    and whatever follows in the reader; so are an accept and a reject
    message whose fields are valid. *)
Theorem messages_roundtrip :
  (forall p : ChannelProposal,
      fields_valid p -> 2 <= numParts p <= math.MaxInt32 ->
      roundtrips_into ChannelProposal_Encode ChannelProposal_Decode p) /\
  (forall acc : ChannelProposalAcc,
      acc_valid acc ->
      roundtrips_into ChannelProposalAcc_Encode ChannelProposalAcc_Decode
                      acc) /\
  (forall rej : ChannelProposalRej,
      rej_valid rej ->
      roundtrips_into ChannelProposalRej_Encode ChannelProposalRej_Decode
                      rej).
Proof.
  split; [|split].
  - exact proposal_roundtrip.
  - exact acc_roundtrip.
  - exact rej_roundtrip.
Qed.

(** C2.  Minimum participants: when the fields before the count decode and
    the count read from the buffer is below 2, [Decode] fails with the
    error whose message ends in that count; the reader stays where the
    count ended, and [Parts] of the receiver is what it was before the
    call (for the registered decoder: empty), not participants read from
    the buffer. *)
Theorem Decode_rejects_small_count (c : ChannelProposal) (r : Reader)
  (c' : ChannelProposal) (r' : Reader) (n : Z) (r'' : Reader) :
  decodesHeader c r c' r' ->
  Decode_int32 0 r' = (n, r'', None) ->
  n < 2 ->
  let err := Errorf "expected at least 2 participants, got %d" [n] in
  ChannelProposal_Decode c r = (c', r'', Some err) /\
  Error err = ("expected at least 2 participants, got " ++ fmt_d n)%string /\
  Parts c' = Parts c.
Proof.
  intros Hh Hn Hlt err. split; [|split].
  - rewrite (Decode_header _ _ _ _ Hh), Hn.
    now replace (n <? 2) with true by (symmetry; lia).
  - cbn. now rewrite append_empty_r.
  - destruct Hh as (? & ? & ? & ? & ? & ? & ? & ? & ? & ? & ? & ? & ? & ? & ?
                    & ? & ? & ? & ? & ->).
    reflexivity.
Qed.

(** What [Encode] does on too many participants, once the header is
    written. *)
Lemma Encode_overflow (p : ChannelProposal) (w w1 : Writer) :
  encodeHeader p w = (w1, None) ->
  numParts p > math.MaxInt32 ->
  ChannelProposal_Encode p w =
  (w1, Some (Errorf "expected maximum number of participants %d, got %d"
                    [math.MaxInt32; numParts p])).
Proof.
  intros Hh Hgt. rewrite Encode_header, Hh.
  now replace (numParts p >? math.MaxInt32) with true by (symmetry; lia).
Qed.

(** C3, amended.  Participant overflow: on a proposal with more than
    [2^31-1] participants whose fields before the count encode without
    error, [Encode] fails once those fields are written and before the
    count or any participant is; the message of the error reports the
    limit and the actual count. *)
Theorem Encode_rejects_overflow (p : ChannelProposal) (w w1 : Writer) :
  encodeHeader p w = (w1, None) ->
  numParts p > math.MaxInt32 ->
  exists err,
    ChannelProposal_Encode p w = (w1, Some err) /\
    Error err = ("expected maximum number of participants 2147483647, got "
                 ++ fmt_d (numParts p))%string.
Proof.
  intros Hh Hgt. eexists. split.
  - now apply Encode_overflow.
  - cbn. now rewrite append_empty_r.
Qed.

(** C5.  Unknown application: when the fields up to [AppDef] decode and
    [AppDef] does not resolve, [Decode] returns the error of the resolution
    with the reader where the decoding of [AppDef] left it and with
    [InitData], [InitBals] and [Parts] of the receiver untouched. *)
Theorem Decode_unknown_app (c : ChannelProposal) (r : Reader)
  (v1 : Z) (r1 : Reader) (v2 : option Z) (r2 : Reader)
  (v3 : Address) (r3 : Reader) (v4 : Address) (r4 : Reader)
  (app : App) (e : error) :
  Decode_uint64 (ChallengeDuration c) r = (v1, r1, None) ->
  Decode_bigInt (Nonce c) r1 = (v2, r2, None) ->
  DecodeAddress r2 = (v3, r3, None) ->
  DecodeAddress r3 = (v4, r4, None) ->
  AppFromDefinition v4 = (app, Some e) ->
  ChannelProposal_Decode c r =
  ({| ChallengeDuration := v1; Nonce := v2; ParticipantAddr := v3;
      AppDef := v4; InitData := InitData c; InitBals := InitBals c;
      Parts := Parts c |}, r4, Some e).
Proof.
  intros H1 H2 H3 H4 H5. unfold ChannelProposal_Decode.
  rewrite H1; cbn. rewrite H2; cbn. rewrite H3; cbn. rewrite H4; cbn.
  now rewrite H5.
Qed.

Lemma encodeParts_app (pre post : list Address) (i : Z) (w w' : Writer) :
  encodeParts i pre w = (w', None) ->
  encodeParts i (pre ++ post) w
  = encodeParts (i + Z.of_nat (List.length pre)) post w'.
Proof.
  revert i w. induction pre as [|a pre IH]; intros i w H.
  - cbn in H. injection H as ->. now rewrite Z.add_0_r.
  - cbn [encodeParts app] in *.
    destruct (Address_Encode a w) as [w1 [e|]]; [discriminate|].
    rewrite (IH _ _ H). f_equal. cbn [List.length]. lia.
Qed.

(** C6.  What [Encode] returns when the participant at index
    [len(pre)] is the first whose address fails to encode, with error [e]:
    a new error whose message names the index and which has no cause, so
    that [e] is not carried by it (unless [e] is that very error). *)
Theorem Encode_participant_error (p : ChannelProposal) (w w1 w2 : Writer)
  (pre : list Address) (a : Address) (post : list Address)
  (w3 w4 : Writer) (e : error) :
  encodeHeader p w = (w1, None) ->
  numParts p <= math.MaxInt32 ->
  Encode_int32 (int32 (numParts p)) w1 = (w2, None) ->
  Parts p = pre ++ a :: post ->
  encodeParts 0 pre w2 = (w3, None) ->
  Address_Encode a w3 = (w4, Some e) ->
  let i := Z.of_nat (List.length pre) in
  let err := fundamental ("error encoding participant " ++ fmt_d i) in
  ChannelProposal_Encode p w = (w4, Some err) /\
  Cause err = err /\
  (e <> err -> ~ carries err e).
Proof.
  intros Hh Hle Hn Hp Hpre Ha i err. split; [|split].
  - rewrite Encode_header, Hh.
    replace (numParts p >? math.MaxInt32) with false by (symmetry; lia).
    rewrite (andThen_ok _ _ _ _ Hn), Hp, (encodeParts_app _ _ _ _ _ Hpre).
    cbn [encodeParts]. rewrite Ha. unfold Errorf. cbn.
    now rewrite append_empty_r.
  - reflexivity.
  - intros Hne [Heq | []]. now apply Hne.
Qed.

(** X12.  A failure of [ChannelProposalAcc.Decode] is the error of the
    field codec annotated with ["SID decoding"] or with ["participant
    address decoding"], according to the field that failed.  A failure of
    [ChannelProposalRej.Decode] is the error that [wire.Decode] returned
    for the failing field, as it is: the function adds no message of its
    own, so what its error says is what package [wire] makes it say. *)
Theorem Decode_failure_messages :
  (forall acc r acc' r' e,
      ChannelProposalAcc_Decode acc r = (acc', r', Some e) ->
      (exists v cause,
          Decode_bytes32 (Acc_SessID acc) r = (v, r', Some cause) /\
          e = withMessage cause "SID decoding") \/
      (exists v r1 a cause,
          Decode_bytes32 (Acc_SessID acc) r = (v, r1, None) /\
          DecodeAddress r1 = (a, r', Some cause) /\
          e = withMessage cause "participant address decoding")) /\
  (forall rej r rej' r' e,
      ChannelProposalRej_Decode rej r = (rej', r', Some e) ->
      (exists v, Decode_bytes32 (Rej_SessID rej) r = (v, r', Some e)) \/
      (exists v r1 s,
          Decode_bytes32 (Rej_SessID rej) r = (v, r1, None) /\
          Decode_string (Rej_Reason rej) r1 = (s, r', Some e))).
Proof.
  split.
  - intros acc r acc' r' e. unfold ChannelProposalAcc_Decode.
    destruct (Decode_bytes32 _ r) as [[v r1] [cause|]]; cbn.
    + intros [= <- <- <-]. left. now exists v, cause.
    + destruct (DecodeAddress r1) as [[a r2] [cause|]] eqn:Ha;
        [|discriminate].
      intros [= <- <- <-]. right. now exists v, r1, a, cause.
  - intros rej r rej' r' e. unfold ChannelProposalRej_Decode.
    destruct (Decode_bytes32 _ r) as [[v r1] [cause|]]; cbn.
    + intros [= <- <- <-]. left. now exists v.
    + destruct (Decode_string _ r1) as [[s r2] err] eqn:Hs.
      intros [= <- <- ->]. right. exists v, r1, s. split; [reflexivity|].
      exact Hs.
Qed.

(** C9.  [Encode] has no minimum-participants check: with fewer than two
    participants it succeeds as soon as the header, the count and the
    participants encode, and the count it writes is the small one.  On
    valid fields the bytes it writes are a header, the count and the
    participants, and [Decode] rejects these bytes for their count. *)
Theorem Encode_accepts_small_count :
  (forall (p : ChannelProposal) (w w1 w2 w3 : Writer),
      encodeHeader p w = (w1, None) ->
      numParts p < 2 ->
      Encode_int32 (numParts p) w1 = (w2, None) ->
      encodeParts 0 (Parts p) w2 = (w3, None) ->
      ChannelProposal_Encode p w = (w3, None)) /\
  (forall p : ChannelProposal,
      fields_valid p ->
      numParts p < 2 ->
      exists hdr cnt tl,
        encodes (encodeHeader p) hdr /\
        encodes (Encode_int32 (numParts p)) cnt /\
        encodes (ChannelProposal_Encode p) (hdr ++ cnt ++ tl) /\
        forall c rest,
          ChannelProposal_Decode c (hdr ++ cnt ++ tl ++ rest)
          = (set_Parts (Parts c) p, tl ++ rest,
             Some (Errorf "expected at least 2 participants, got %d"
                          [numParts p]))).
Proof.
  assert (Hsmall : forall p : ChannelProposal,
             numParts p < 2 -> 0 <= numParts p <= math.MaxInt32).
  { intros p Hlt. unfold numParts, math.MaxInt32 in *. lia. }
  split.
  - intros p w w1 w2 w3 Hh Hlt Hn Hp.
    rewrite Encode_header, Hh.
    replace (numParts p >? math.MaxInt32) with false
      by (symmetry; specialize (Hsmall p Hlt); lia).
    rewrite int32_small by auto.
    now rewrite (andThen_ok _ _ _ _ Hn).
  - intros p Hv Hlt.
    destruct (header_roundtrip p Hv) as (hdr & Ehdr & Dhdr).
    destruct Hv as (_ & _ & _ & _ & _ & _ & (cnt & E7 & D7) & Hparts).
    destruct (parts_roundtrip _ Hparts) as (tl & Es & _).
    rewrite int32_small in E7, D7 by auto.
    exists hdr, cnt, tl. repeat split; try assumption.
    + intros w. rewrite Encode_header, (Ehdr w).
      replace (numParts p >? math.MaxInt32) with false
        by (symmetry; specialize (Hsmall p Hlt); lia).
      rewrite int32_small by auto.
      rewrite (andThen_ok _ _ _ _ (E7 _)), Es.
      now rewrite <- !app_assoc.
    + intros c rest.
      rewrite (Decode_header _ _ _ _ (Dhdr c _)), D7.
      now replace (numParts p <? 2) with true by (symmetry; lia).
Qed.

(** [leaf H] runs the rest of a decoder in [H] to each of its results and
    reads the goal off the result; [stage H] takes the next field decoder
    to have succeeded. *)
Ltac leaf H :=
  repeat match type of H with
         | context [match ?x with _ => _ end] => destruct x eqn:?; cbn in H
         end;
  inversion H; subst; try reflexivity.

Ltac stage H :=
  let Hd := fresh "Hd" in
  intros ? ? Hd; rewrite Hd in H; cbn in H; split; [leaf H|].

(** C10.  [Decode] is not atomic.  Whenever it fails, every field whose
    decoder had succeeded holds the decoded value in the receiver that is
    left behind; a failure among the participants leaves [Parts] as the
    loop left it; and the decoder that [init] registers returns this
    receiver, started from the zero value, together with the error. *)
Theorem Decode_not_atomic :
  (forall c r c' r' e,
      ChannelProposal_Decode c r = (c', r', Some e) ->
      forall v1 r1,
        Decode_uint64 (ChallengeDuration c) r = (v1, r1, None) ->
        ChallengeDuration c' = v1 /\
      forall v2 r2,
        Decode_bigInt (Nonce c) r1 = (v2, r2, None) ->
        Nonce c' = v2 /\
      forall v3 r3,
        DecodeAddress r2 = (v3, r3, None) ->
        ParticipantAddr c' = v3 /\
      forall v4 r4,
        DecodeAddress r3 = (v4, r4, None) ->
        AppDef c' = v4 /\
      forall app,
        AppFromDefinition v4 = (app, None) ->
      forall v5 r5,
        DecodeData app r4 = (v5, r5, None) ->
        InitData c' = v5 /\
      forall v6 r6,
        Allocation_Decode Allocation_new r5 = (v6, r6, None) ->
        InitBals c' = v6 /\
      forall n r7,
        Decode_int32 0 r6 = (n, r7, None) ->
        2 <= n ->
        (Parts c', r', Some e)
        = decodeParts (Z.to_nat n) 0 (make Address_nil n) r7) /\
  (forall r m r' e,
      ChannelProposal_Decode ChannelProposal_zero r = (m, r', Some e) ->
      init msg_ChannelProposal r = (MsgChannelProposal m, r', Some e)).
Proof.
  split.
  - intros c r c' r' e H. unfold ChannelProposal_Decode in H.
    stage H. stage H. stage H. stage H.
    intros app Happ. rewrite Happ in H; cbn in H.
    stage H. stage H.
    intros n r7 Hn Hge. rewrite Hn in H; cbn in H.
    replace (n <? 2) with false in H by (symmetry; lia).
    unfold make in H |- *. rewrite repeat_length in H.
    destruct (decodeParts _ _ _ _) as [[parts r8] err].
    now inversion H.
  - intros r m r' e H. cbn. unfold decodeChannelProposal. now rewrite H.
Qed.

End ProposalProperties.

(** ** The properties of package [channel] *)

Section BackendProperties.
Import channel.
Variables Params State ID Sig Account Addr World : Type.

(** C4.  Backend delegation: once [SetBackend b] has run, whatever was
    installed before, each of [ChannelID], [Sign] and [Verify] is the
    method of [b] applied once to the very arguments of the call, and its
    result is that of [b]: the result and the world after the call are
    those of one application of the method.  Measured on a backend that
    logs what it receives, the log grows by exactly the call made. *)
Theorem SetBackend_delegates :
  (forall (b : Backend Params State ID Sig Account Addr World) prev,
      let backend := SetBackend b prev in
      (forall p w,
          ChannelID backend p w = Some (Backend_ChannelID b p w)) /\
      (forall a p s w,
          Sign backend a p s w = Some (Backend_Sign b a p s w)) /\
      (forall a p s sig w,
          Verify backend a p s sig w = Some (Backend_Verify b a p s sig w))) /\
  (forall (b : Backend Params State ID Sig Account Addr World) prev,
      let backend := SetBackend (recording b) prev in
      (forall p w log,
          exists id w',
            Backend_ChannelID b p w = (id, w') /\
            ChannelID backend p (w, log)
            = Some (id, (w', log ++ [CallChannelID p]))) /\
      (forall a p s w log,
          exists sig err w',
            Backend_Sign b a p s w = (sig, err, w') /\
            Sign backend a p s (w, log)
            = Some (sig, err, (w', log ++ [CallSign a p s]))) /\
      (forall a p s sig w log,
          exists ok err w',
            Backend_Verify b a p s sig w = (ok, err, w') /\
            Verify backend a p s sig (w, log)
            = Some (ok, err, (w', log ++ [CallVerify a p s sig])))).
Proof.
  split; intros b prev backend; subst backend; cbn.
  - repeat split.
  - split; [|split].
    + intros p w log.
      destruct (Backend_ChannelID b p w) as [id w']. now exists id, w'.
    + intros a p s w log.
      destruct (Backend_Sign b a p s w) as [[sig err] w'].
      now exists sig, err, w'.
    + intros a p s sig w log.
      destruct (Backend_Verify b a p s sig w) as [[ok err] w'].
      now exists ok, err, w'.
Qed.

End BackendProperties.

(** [TestGlobalBackend] passes on the functions modelled from the spec. *)
Lemma TestGlobalBackend_passes : channel.TestGlobalBackend = true.
Proof. reflexivity. Qed.

(** ** The properties on the sample instance *)

Section SampleRuns.
Import client Sample.

(** *** The sample codecs round-trip on the values in their range *)

Lemma Z_of_byte_of_Z (z : Z) : Z_of_byte (byte_of_Z z) = z mod 256.
Proof.
  unfold Z_of_byte, byte_of_Z.
  pose proof (Z.mod_pos_bound z 256 eq_refl) as Hb.
  destruct (Byte.of_N (Z.to_N (z mod 256))) as [b|] eqn:E.
  - apply Byte.to_of_N in E. rewrite E. apply Z2N.id. lia.
  - apply Byte.of_N_None_iff in E. lia.
Qed.

Lemma PutUint_length (n : nat) (z : Z) : List.length (PutUint n z) = n.
Proof. induction n as [|n IH]; simpl; [reflexivity | now rewrite IH]. Qed.

Lemma Uint_PutUint_acc (n : nat) (z acc : Z) :
  fold_left (fun acc b => acc * 256 + Z_of_byte b) (PutUint n z) acc
  = acc * 256 ^ Z.of_nat n + z mod 256 ^ Z.of_nat n.
Proof.
  revert acc. induction n as [|n IH]; intros acc.
  - simpl. rewrite Z.mod_1_r. lia.
  - cbn [PutUint fold_left]. rewrite IH, Z_of_byte_of_Z.
    rewrite Nat2Z.inj_succ, Z.pow_succ_r by lia.
    rewrite Z.shiftr_div_pow2 by lia.
    replace (2 ^ (8 * Z.of_nat n)) with (256 ^ Z.of_nat n)
      by (rewrite Z.pow_mul_r by lia; reflexivity).
    rewrite (Z.mul_comm 256 (256 ^ Z.of_nat n)).
    rewrite (Z.rem_mul_r z (256 ^ Z.of_nat n) 256) by lia.
    lia.
Qed.

Lemma Uint_PutUint (n : nat) (z : Z) :
  0 <= z < 256 ^ Z.of_nat n -> Uint (PutUint n z) = z.
Proof.
  intros Hz. unfold Uint. rewrite Uint_PutUint_acc, Z.mod_small; lia.
Qed.

Lemma ReadFull_app (bs rest : list byte) :
  ReadFull (List.length bs) (bs ++ rest) = Some (bs, rest).
Proof.
  induction bs as [|b bs IH]; simpl; [reflexivity | now rewrite IH].
Qed.


Lemma Uint_PutUint_mod (n : nat) (z : Z) :
  Uint (PutUint n z) = z mod 256 ^ Z.of_nat n.
Proof. unfold Uint. now rewrite Uint_PutUint_acc. Qed.

Lemma readFixed_app {A : Type} (conv : list byte -> A) (old : A)
  (bs rest : list byte) :
  readFixed (List.length bs) conv old (bs ++ rest) = (conv bs, rest, None).
Proof. unfold readFixed. now rewrite ReadFull_app. Qed.

Lemma readFixed_PutUint {A : Type} (conv : list byte -> A) (old : A)
  (n : nat) (z : Z) (rest : list byte) :
  readFixed n conv old (PutUint n z ++ rest) = (conv (PutUint n z), rest, None).
Proof.
  rewrite <- (PutUint_length n z) at 1. apply readFixed_app.
Qed.

Lemma uint64_valid (z : Z) :
  0 <= z < 2 ^ 64 -> roundtrips_into Encode_uint64 Decode_uint64 z.
Proof.
  intros Hz. exists (PutUint 8 z). split; [intros w; reflexivity|].
  intros old rest. cbn [Decode_uint64 wire].
  rewrite readFixed_PutUint, Uint_PutUint; [reflexivity|].
  exact Hz.
Qed.

Lemma int32_valid (z : Z) :
  - 2 ^ 31 <= z < 2 ^ 31 -> roundtrips_into Encode_int32 Decode_int32 z.
Proof.
  intros Hz. exists (PutUint 4 z). split; [intros w; reflexivity|].
  intros old rest. cbn [Decode_int32 wire].
  rewrite readFixed_PutUint, Uint_PutUint_mod.
  do 2 f_equal. unfold int32. change (256 ^ Z.of_nat 4) with (2 ^ 32).
  rewrite Z.add_mod_idemp_l by lia. rewrite Z.mod_small; lia.
Qed.

Lemma bytes32_valid (s : SessionID) :
  List.length s = 32%nat -> roundtrips_into Encode_bytes32 Decode_bytes32 s.
Proof.
  intros Hlen. exists s. split; [intros w; reflexivity|].
  intros old rest. cbn [Decode_bytes32 wire]. rewrite <- Hlen.
  apply readFixed_app.
Qed.

Lemma length_byte (n : nat) :
  (n <= 255)%nat -> Z.to_nat (Z_of_byte (byte_of_Z (Z.of_nat n))) = n.
Proof.
  intros Hn. rewrite Z_of_byte_of_Z, Z.mod_small by lia. apply Nat2Z.id.
Qed.

Lemma data_valid (d : list byte) :
  (List.length d <= 255)%nat -> roundtrips Data_Encode (DecodeData tt) d.
Proof.
  intros Hlen. exists (byte_of_Z (Z.of_nat (List.length d)) :: d). split.
  - intros w. cbn. unfold encode_data.
    now replace (255 <? List.length d)%nat with false
      by (symmetry; apply Nat.ltb_ge; lia).
  - intros rest. cbn [DecodeData channel decode_data app].
    rewrite length_byte by assumption. apply readFixed_app.
Qed.

Lemma list_byte_of_string_length (s : string) :
  List.length (list_byte_of_string s) = String.length s.
Proof.
  unfold list_byte_of_string. rewrite length_map.
  induction s as [|c s IH]; simpl; [reflexivity | now rewrite IH].
Qed.

Lemma string_valid (s : string) :
  Z.of_nat (String.length s) <= 65535 ->
  roundtrips_into Encode_string Decode_string s.
Proof.
  intros Hlen. pose proof (list_byte_of_string_length s) as Hl.
  exists (PutUint 2 (Z.of_nat (String.length s)) ++ list_byte_of_string s).
  split.
  - intros w. cbn. unfold encode_string. rewrite Hl.
    now replace (65535 <? Z.of_nat (String.length s)) with false
      by (symmetry; lia).
  - intros old rest. cbn [Decode_string wire]. unfold decode_string.
    rewrite <- app_assoc.
    rewrite <- (PutUint_length 2 (Z.of_nat (String.length s))) at 1.
    rewrite ReadFull_app, Uint_PutUint, Nat2Z.id, <- Hl
      by (change (256 ^ Z.of_nat 2) with 65536; lia).
    rewrite readFixed_app. now rewrite string_of_list_byte_of_string.
Qed.

Lemma magnitude_bound (z : Z) :
  0 < z -> z < 256 ^ Z.of_nat (magnitude_len z).
Proof.
  intros Hz. unfold magnitude_len.
  pose proof (Z.log2_nonneg z) as Hl.
  destruct (Z.log2_spec z Hz) as [_ Hlt].
  rewrite Z2Nat.id by (apply Z.div_pos; lia).
  change 256 with (2 ^ 8). rewrite <- Z.pow_mul_r by (try apply Z.div_pos; lia).
  eapply Z.lt_le_trans; [exact Hlt|].
  apply Z.pow_le_mono_r; [lia|].
  pose proof (Z.mul_succ_div_gt (Z.log2 z + 8) 8 eq_refl). lia.
Qed.

Lemma bigInt_valid (z : Z) :
  0 <= z < 2 ^ 2040 ->
  roundtrips_into Encode_bigInt Decode_bigInt (Some z).
Proof.
  intros Hz.
  assert (Hlen : z <> 0 -> (magnitude_len z <= 255)%nat).
  { intros Hnz. unfold magnitude_len.
    assert (Z.log2 z < 2040) by (apply Z.log2_lt_pow2; lia).
    pose proof (Z.log2_nonneg z).
    apply Nat2Z.inj_le. rewrite Z2Nat.id by (apply Z.div_pos; lia).
    change (Z.of_nat 255) with 255.
    apply Z.lt_succ_r, Z.div_lt_upper_bound; lia. }
  destruct (Z.eq_dec z 0) as [->|Hnz].
  - exists [x00]. split; intros; intro; reflexivity.
  - specialize (Hlen Hnz).
    exists (byte_of_Z (Z.of_nat (magnitude_len z))
            :: PutUint (magnitude_len z) z).
    split.
    + intros w. cbn [Encode_bigInt wire]. unfold encode_bigInt.
      replace (z <? 0) with false by (symmetry; lia).
      replace (z =? 0) with false by (symmetry; lia).
      now replace (255 <? magnitude_len z)%nat with false
        by (symmetry; apply Nat.ltb_ge; lia).
    + intros old rest. cbn [Decode_bigInt wire app]. unfold decode_bigInt.
      rewrite length_byte, readFixed_PutUint, Uint_PutUint;
        [reflexivity | | assumption].
      split; [lia | apply magnitude_bound; lia].
Qed.

Lemma balances_decode (bals : list Z) (rest : list byte) :
  Forall (fun b => 0 <= b < 2 ^ 64) bals ->
  decode_balances (List.length bals) (flat_map (PutUint 8) bals ++ rest)
  = (bals, rest, None).
Proof.
  induction 1 as [|b bals Hb _ IH]; [reflexivity|].
  cbn [List.length flat_map decode_balances]. rewrite <- app_assoc.
  rewrite <- (PutUint_length 8 b) at 1.
  rewrite ReadFull_app, IH, Uint_PutUint; [reflexivity | exact Hb].
Qed.

Lemma allocation_valid (bals : list Z) :
  (List.length bals <= 255)%nat ->
  Forall (fun b => 0 <= b < 2 ^ 64) bals ->
  roundtrips Allocation_Encode (Allocation_Decode Allocation_new) (Some bals).
Proof.
  intros Hlen Hb.
  exists (byte_of_Z (Z.of_nat (List.length bals)) :: flat_map (PutUint 8) bals).
  split.
  - intros w. cbn [Allocation_Encode channel]. unfold encode_allocation.
    now replace (255 <? List.length bals)%nat with false
      by (symmetry; apply Nat.ltb_ge; lia).
  - intros rest. cbn [Allocation_Decode channel app]. unfold decode_allocation.
    now rewrite length_byte, balances_decode.
Qed.

(** *** The examples *)

(** [valid bs] proves that a sample codec round-trips on a value whose
    encoding is [bs]. *)
Ltac valid bs := exists bs; split; intros; intro; reflexivity.

Lemma proposal_fields_valid (parts : list (list byte)) :
  Forall (roundtrips Address_Encode DecodeAddress) parts ->
  roundtrips Encode_int32 (Decode_int32 0)
             (int32 (Z.of_nat (List.length parts))) ->
  fields_valid (proposalOf parts).
Proof.
  intros Hparts Hcount. unfold fields_valid.
  split; [valid (PutUint 8 100)|].
  split; [valid [x01; x2a]|].
  split; [valid alice|].
  split; [valid appAddress|].
  split; [exists tt; split; [reflexivity | valid [x01; x07]]|].
  split; [valid ([x02] ++ PutUint 8 5 ++ PutUint 8 6)|].
  split; assumption.
Qed.

Lemma address_valid (a : list byte) :
  List.length a = 20%nat -> roundtrips Address_Encode DecodeAddress a.
Proof.
  intros Hlen. exists a. split.
  - intros w. cbn. unfold encode_address. now rewrite Hlen.
  - intros rest.
    do 20 (destruct a as [|? a]; [discriminate|]).
    destruct a; [reflexivity | discriminate].
Qed.

Lemma well_formed_valid (p : ChannelProposal) :
  well_formed p -> numParts p <= math.MaxInt32 -> fields_valid p.
Proof.
  intros (H1 & (z & Hn & Hz) & H3 & H4 & H5 & (bals & Hb & Hl & Hf) & Hp) Hc.
  unfold fields_valid. rewrite Hn, H4, Hb.
  split; [now apply uint64_valid|].
  split; [now apply bigInt_valid|].
  split; [now apply address_valid|].
  split; [now apply address_valid|].
  split; [exists tt; split; [reflexivity | now apply data_valid]|].
  split; [now apply allocation_valid|].
  split.
  - rewrite int32_small by (unfold numParts in *; lia).
    destruct (int32_valid (numParts p)) as (bs & E & D).
    + unfold numParts, math.MaxInt32 in *. lia.
    + exists bs. split; [exact E | exact (D 0)].
  - revert Hp. apply Forall_impl. exact address_valid.
Qed.

(** On the sample instance every well-formed proposal with 2 to [2^31-1]
    participants round-trips. *)
Lemma well_formed_roundtrip (p : ChannelProposal) :
  well_formed p -> 2 <= numParts p <= math.MaxInt32 ->
  roundtrips_into ChannelProposal_Encode ChannelProposal_Decode p.
Proof.
  intros Hw Hc. apply proposal_roundtrip; [|exact Hc].
  apply well_formed_valid; [exact Hw | lia].
Qed.

(** C1 on the sample: the happy-path proposal, an accept and a reject
    message round-trip. *)
Lemma messages_roundtrip_sample :
  roundtrips_into ChannelProposal_Encode ChannelProposal_Decode proposal /\
  roundtrips_into ChannelProposalAcc_Encode ChannelProposalAcc_Decode accept /\
  roundtrips_into ChannelProposalRej_Encode ChannelProposalRej_Decode reject.
Proof.
  destruct (@messages_roundtrip wire wallet channel) as (Hp & Ha & Hr).
  split; [|split].
  - apply (Hp proposal).
    + apply (proposal_fields_valid [alice; bob]).
      * repeat constructor; now apply address_valid.
      * valid (PutUint 4 2).
    + cbv. split; discriminate.
  - apply Ha. split; [valid sid | now apply address_valid].
  - apply Hr. split; [valid sid | valid ([x00; x02] ++ [x6e; x6f])].
Defined.

Lemma loneBytes_header (c : ChannelProposal) (rest : list byte) :
  decodesHeader c (proposalHeader ++ rest) (set_Parts (Parts c) proposal) rest.
Proof.
  exists 100, (skipn 8 proposalHeader ++ rest),
         (Some 42), (skipn 10 proposalHeader ++ rest),
         alice, (skipn 30 proposalHeader ++ rest),
         appAddress, (skipn 50 proposalHeader ++ rest), tt,
         [x07], (skipn 52 proposalHeader ++ rest), (Some [5; 6]).
  repeat split.
Qed.

(** C2 on the sample: the scenario "malformed participant count" of the
    spec, a count of 1 followed by one well-formed address. *)
Lemma Decode_rejects_small_count_sample :
  ChannelProposal_Decode ChannelProposal_zero loneBytes
  = (set_Parts [] proposal, alice,
     Some (fundamental "expected at least 2 participants, got 1")) /\
  Error (Errorf "expected at least 2 participants, got %d" [1])
  = "expected at least 2 participants, got 1" /\
  Parts (set_Parts [] proposal) = [].
Proof.
  apply (@Decode_rejects_small_count wire wallet channel
           ChannelProposal_zero loneBytes (set_Parts [] proposal)
           (PutUint 4 1 ++ alice) 1 alice).
  - apply (loneBytes_header ChannelProposal_zero).
  - reflexivity.
  - lia.
Defined.

Lemma tooMany_numParts : numParts (proposalOf tooMany) = 2147483648.
Proof.
  unfold numParts, proposalOf, set_Parts, Parts, tooMany.
  rewrite repeat_length. now rewrite Z2Nat.id.
Qed.

Lemma tooMany_header :
  encodeHeader (proposalOf tooMany) [] = (proposalHeader, None).
Proof. reflexivity. Qed.

(** C3 on the sample: [2^31] participants. *)
Lemma Encode_rejects_overflow_sample :
  numParts (proposalOf tooMany) > math.MaxInt32 /\
  exists err,
    ChannelProposal_Encode (proposalOf tooMany) [] = (proposalHeader, Some err) /\
    Error err
    = "expected maximum number of participants 2147483647, got 2147483648".
Proof.
  assert (H : numParts (proposalOf tooMany) > math.MaxInt32).
  { rewrite tooMany_numParts. reflexivity. }
  split; [exact H|].
  destruct (@Encode_rejects_overflow wire wallet channel (proposalOf tooMany)
              [] proposalHeader tooMany_header H) as (err & H1 & H2).
  exists err. split; [exact H1|].
  rewrite H2, tooMany_numParts. reflexivity.
Defined.

(** C3 as stated fails: with [2^31] participants [Encode] fails, and the 69
    bytes of the fields before the count are in the writer, which was
    empty. *)
Lemma Encode_overflow_after_header :
  numParts (proposalOf tooMany) > math.MaxInt32 /\
  (exists err,
      ChannelProposal_Encode (proposalOf tooMany) []
      = (proposalHeader, Some err)) /\
  List.length proposalHeader = 69%nat.
Proof.
  assert (H : numParts (proposalOf tooMany) > math.MaxInt32).
  { rewrite tooMany_numParts. reflexivity. }
  split; [exact H|]. split; [|reflexivity].
  eexists. exact (Encode_overflow _ _ _ tooMany_header H).
Qed.

(** C5 on the sample: the scenario "unknown application" of the spec; the
    two bytes of application data are still in the reader. *)
Lemma Decode_unknown_app_sample :
  ChannelProposal_Decode ChannelProposal_zero unknownAppBytes
  = ({| ChallengeDuration := 100; Nonce := Some 42;
        ParticipantAddr := alice; AppDef := bob; InitData := [];
        InitBals := None; Parts := [] |},
     [x01; x07], Some (fundamental "unknown app")).
Proof.
  apply (@Decode_unknown_app wire wallet channel ChannelProposal_zero
           unknownAppBytes 100 (skipn 8 unknownAppBytes)
           (Some 42) (skipn 10 unknownAppBytes)
           alice (skipn 30 unknownAppBytes) bob [x01; x07] tt);
    reflexivity.
Defined.

(** C6 on the sample: the second of three participants is the nil address,
    which the wallet refuses with its own error; the error of [Encode] is
    another one, and the wallet's error is not among its causes. *)
Lemma Encode_participant_error_sample :
  Address_Encode [] (proposalHeader ++ PutUint 4 3 ++ alice)
  = (proposalHeader ++ PutUint 4 3 ++ alice,
     Some (fundamental "address must have 20 bytes")) /\
  ChannelProposal_Encode (proposalOf [alice; []; bob]) []
  = (proposalHeader ++ PutUint 4 3 ++ alice,
     Some (fundamental "error encoding participant 1")) /\
  ~ carries (fundamental "error encoding participant 1")
            (fundamental "address must have 20 bytes").
Proof.
  split; [reflexivity|].
  destruct (@Encode_participant_error wire wallet channel
              (proposalOf [alice; []; bob]) [] proposalHeader
              (proposalHeader ++ PutUint 4 3) [alice] [] [bob]
              (proposalHeader ++ PutUint 4 3 ++ alice)
              (proposalHeader ++ PutUint 4 3 ++ alice)
              (fundamental "address must have 20 bytes"))
    as (H1 & _ & H2); try reflexivity.
  - cbv. discriminate.
  - split; [exact H1|]. apply H2. discriminate.
Defined.

(** On an empty reader the accept message reports the codec's error under
    ["SID decoding"], and the reject message reports the error of the
    session-id decoder as that returned it. *)
Lemma Decode_failure_messages_sample :
  (ChannelProposalAcc_Decode ChannelProposalAcc_zero []
   = (ChannelProposalAcc_zero, [], Some (withMessage ErrUnexpectedEOF
                                                     "SID decoding")) /\
   exists v cause,
     Decode_bytes32 (Acc_SessID ChannelProposalAcc_zero) []
     = (v, [], Some cause) /\
     withMessage ErrUnexpectedEOF "SID decoding"
     = withMessage cause "SID decoding") /\
  ((exists v,
       Decode_bytes32 (Rej_SessID ChannelProposalRej_zero) []
       = (v, [], Some ErrUnexpectedEOF)) \/
   (exists v r1 s,
       Decode_bytes32 (Rej_SessID ChannelProposalRej_zero) []
       = (v, r1, None) /\
       Decode_string (Rej_Reason ChannelProposalRej_zero) r1
       = (s, [], Some ErrUnexpectedEOF))).
Proof.
  destruct (@Decode_failure_messages wire wallet) as (Hacc & Hrej).
  split.
  - split; [reflexivity|].
    destruct (Hacc ChannelProposalAcc_zero [] ChannelProposalAcc_zero []
                (withMessage ErrUnexpectedEOF "SID decoding") eq_refl)
      as [H | (v & r1 & a & cause & H & _)]; [exact H | discriminate H].
  - exact (Hrej ChannelProposalRej_zero [] ChannelProposalRej_zero []
             ErrUnexpectedEOF eq_refl).
Defined.

(** C9 on the sample: a proposal with the single participant [alice] is
    encoded, count 1 included, to [loneBytes], which [Decode] rejects (see
    [Decode_rejects_small_count_sample]). *)
Lemma Encode_accepts_small_count_sample :
  ChannelProposal_Encode (proposalOf [alice]) [] = (loneBytes, None) /\
  exists hdr cnt tl,
    encodes (encodeHeader (proposalOf [alice])) hdr /\
    encodes (Encode_int32 (numParts (proposalOf [alice]))) cnt /\
    encodes (ChannelProposal_Encode (proposalOf [alice])) (hdr ++ cnt ++ tl) /\
    forall c rest,
      ChannelProposal_Decode c (hdr ++ cnt ++ tl ++ rest)
      = (set_Parts (Parts c) (proposalOf [alice]), tl ++ rest,
         Some (Errorf "expected at least 2 participants, got %d"
                      [numParts (proposalOf [alice])])).
Proof.
  destruct (@Encode_accepts_small_count wire wallet channel) as (H1 & H2).
  split.
  - apply (H1 (proposalOf [alice]) [] proposalHeader
              (proposalHeader ++ PutUint 4 1) loneBytes);
      [reflexivity | cbv; reflexivity | reflexivity | reflexivity].
  - apply (H2 (proposalOf [alice])); [|cbv; reflexivity].
    apply proposal_fields_valid.
    + repeat constructor; now apply address_valid.
    + valid (PutUint 4 1).
Defined.

(** C10 on the sample: on bytes that end inside the allocation, the
    registered decoder returns the error together with a message in which
    the five fields before the allocation hold what was decoded. *)
Lemma Decode_not_atomic_sample :
  init msg_ChannelProposal truncatedBytes
  = (MsgChannelProposal truncatedProposal, [], Some ErrUnexpectedEOF) /\
  ChallengeDuration truncatedProposal = 100 /\
  Nonce truncatedProposal = Some 42 /\
  ParticipantAddr truncatedProposal = alice /\
  AppDef truncatedProposal = appAddress /\
  InitData truncatedProposal = [x07].
Proof.
  destruct (@Decode_not_atomic wire wallet channel) as (Hf & Hreg).
  assert (H : ChannelProposal_Decode ChannelProposal_zero truncatedBytes
              = (truncatedProposal, [], Some ErrUnexpectedEOF))
    by reflexivity.
  split; [exact (Hreg _ _ _ _ H)|].
  specialize (Hf _ _ _ _ _ H).
  destruct (Hf 100 (skipn 8 truncatedBytes) eq_refl) as (H1 & Hf1).
  destruct (Hf1 (Some 42) (skipn 10 truncatedBytes) eq_refl) as (H2 & Hf2).
  destruct (Hf2 alice (skipn 30 truncatedBytes) eq_refl) as (H3 & Hf3).
  destruct (Hf3 appAddress (skipn 50 truncatedBytes) eq_refl) as (H4 & Hf4).
  destruct (Hf4 tt eq_refl [x07] [x02] eq_refl) as (H5 & _).
  repeat split; assumption.
Defined.

End SampleRuns.

(** C4 on the mock of the test: one call of each global function after
    [SetBackend] is one call of the mock's method. *)
Lemma SetBackend_delegates_mock :
  channel.ChannelID (channel.SetBackend channel.mockBackend None) None O
  = Some (repeat x00 32, 1%nat) /\
  channel.Sign (channel.SetBackend channel.mockBackend None) None None None O
  = Some (None, None, 1%nat) /\
  channel.Verify (channel.SetBackend channel.mockBackend None)
                 None None None None O
  = Some (false, None, 1%nat).
Proof.
  destruct (SetBackend_delegates (option unit) (option unit) (list byte)
              (option (list byte)) (option unit) (option unit) nat)
    as (H & _).
  destruct (H channel.mockBackend None) as (H1 & H2 & H3).
  split; [exact (H1 None O)|].
  split; [exact (H2 None None None O) | exact (H3 None None None None O)].
Defined.

(** ** Further properties of the proposal messages *)

Section MoreProposalProperties.
Import client.
Context {wire : Wire} {wallet : Wallet} {channel : Channel}.

(** X1.  The decoder that [init] registers for a message type returns a message
    of that type, on every reader and whether decoding fails or not. *)
Theorem init_Type (t : msg_Type) (r : Reader) :
  Type_ (fst (fst (init t r))) = t.
Proof.
  destruct t; cbn;
    [ unfold decodeChannelProposal;
      destruct (ChannelProposal_Decode _ r) as [[m r'] err]
    | unfold decodeChannelProposalAcc;
      destruct (ChannelProposalAcc_Decode _ r) as [[m r'] err]
    | unfold decodeChannelProposalRej;
      destruct (ChannelProposalRej_Decode _ r) as [[m r'] err] ];
    reflexivity.
Qed.

Lemma carries_refl (e : error) : carries e e.
Proof. destruct e; left; reflexivity. Qed.

Lemma carries_cause (cause : error) (msg : string) :
  carries (withMessage cause msg) cause.
Proof. right. apply carries_refl. Qed.

(** X2.  A failure of [ChannelProposalAcc.Encode] is the error of the failing
    field codec annotated with the name of the field, and carries that
    error; when the session id fails, the address is not written. *)
Theorem Acc_Encode_failure (acc : ChannelProposalAcc) (w w' : Writer)
  (e : error) :
  ChannelProposalAcc_Encode acc w = (w', Some e) ->
  (exists cause,
      Encode_bytes32 (Acc_SessID acc) w = (w', Some cause) /\
      e = withMessage cause "SID encoding" /\ carries e cause) \/
  (exists w1 cause,
      Encode_bytes32 (Acc_SessID acc) w = (w1, None) /\
      Address_Encode (Acc_ParticipantAddr acc) w1 = (w', Some cause) /\
      e = withMessage cause "participant address encoding" /\
      carries e cause).
Proof.
  unfold ChannelProposalAcc_Encode.
  destruct (Encode_bytes32 _ w) as [w1 [cause|]].
  - intros [= <- <-]. left. exists cause.
    split; [reflexivity|]. split; [reflexivity | apply carries_cause].
  - destruct (Address_Encode _ w1) as [w2 [cause|]] eqn:Ha; [|discriminate].
    intros [= <- <-]. right. exists w1, cause.
    split; [reflexivity|]. split; [exact Ha|].
    split; [reflexivity | apply carries_cause].
Qed.

Lemma set_index_length {A : Type} (s : list A) (i : nat) (v : A) :
  List.length (set_index s i v) = List.length s.
Proof.
  revert i. induction s as [|x s IH]; intros [|i]; simpl; auto.
Qed.

Lemma set_index_same {A : Type} (s : list A) (i : nat) (v : A) :
  (i < List.length s)%nat -> nth_error (set_index s i v) i = Some v.
Proof.
  revert i. induction s as [|x s IH]; intros [|i] Hi; simpl in *;
    try lia; [reflexivity | apply IH; lia].
Qed.

Lemma set_index_other {A : Type} (s : list A) (i j : nat) (v : A) :
  i <> j -> nth_error (set_index s i v) j = nth_error s j.
Proof.
  revert i j. induction s as [|x s IH]; intros [|i] [|j] Hij; simpl;
    try reflexivity; try congruence.
  apply IH. congruence.
Qed.

Lemma decodeParts_length (n i : nat) (parts : list Address) (r : Reader) :
  List.length (fst (fst (decodeParts n i parts r))) = List.length parts.
Proof.
  revert i parts r. induction n as [|n IH]; intros i parts r; simpl;
    [reflexivity|].
  destruct (DecodeAddress r) as [[a r1] [e|]]; simpl.
  - apply set_index_length.
  - rewrite IH. apply set_index_length.
Qed.

(** A failure of the participant loop: the address decoder failed at some
    index [k] of the loop; the slots behind [k] are as they were. *)
Lemma decodeParts_failure (n i : nat) (parts : list Address) (r : Reader)
  (parts' : list Address) (r' : Reader) (e : error) :
  decodeParts n i parts r = (parts', r', Some e) ->
  (i + n <= List.length parts)%nat ->
  exists k rk a,
    (i <= k < i + n)%nat /\
    DecodeAddress rk = (a, r', Some e) /\
    nth_error parts' k = Some a /\
    forall j, (k < j)%nat -> nth_error parts' j = nth_error parts j.
Proof.
  revert i parts r. induction n as [|n IH]; intros i parts r H Hlen;
    [discriminate|].
  cbn [decodeParts] in H.
  destruct (DecodeAddress r) as [[a r1] [e1|]] eqn:Ha.
  - injection H as <- <- <-. exists i, r, a. repeat split; try lia.
    + exact Ha.
    + apply set_index_same. lia.
    + intros j Hj. apply set_index_other. lia.
  - apply IH in H; [|rewrite set_index_length; lia].
    destruct H as (k & rk & a' & Hk & Hd & Hn & Hrest).
    exists k, rk, a'. repeat split; try lia; try assumption.
    intros j Hj. rewrite (Hrest j Hj). apply set_index_other. lia.
Qed.

(** A run of [Decode] either fails before the count or reads the whole
    header. *)
Lemma Decode_header_cases (c : ChannelProposal) (r : Reader) :
  (exists c1 r1, decodesHeader c r c1 r1) \/
  (exists c' r' e, ChannelProposal_Decode c r = (c', r', Some e)).
Proof.
  unfold ChannelProposal_Decode, decodesHeader.
  destruct (Decode_uint64 _ r) as [[v1 r1] [e|]] eqn:E1; cbn;
    [right; eauto|].
  destruct (Decode_bigInt _ r1) as [[v2 r2] [e|]] eqn:E2; cbn;
    [right; eauto|].
  destruct (DecodeAddress r2) as [[v3 r3] [e|]] eqn:E3; cbn;
    [right; eauto|].
  destruct (DecodeAddress r3) as [[v4 r4] [e|]] eqn:E4; cbn;
    [right; eauto|].
  destruct (AppFromDefinition v4) as [app [e|]] eqn:E5; cbn;
    [right; eauto|].
  destruct (DecodeData app r4) as [[v5 r5] [e|]] eqn:E6; cbn;
    [right; eauto|].
  destruct (Allocation_Decode _ r5) as [[v6 r6] [e|]] eqn:E7; cbn;
    [right; eauto|].
  left. do 2 eexists.
  exists v1, r1, v2, r2, v3, r3, v4, r4, app, v5, r5, v6.
  repeat split; eassumption.
Qed.

(** What a successful run of [Decode] went through. *)
Lemma Decode_success_inv (c : ChannelProposal) (r : Reader)
  (c' : ChannelProposal) (r' : Reader) :
  ChannelProposal_Decode c r = (c', r', None) ->
  exists c1 r1 n r2,
    decodesHeader c r c1 r1 /\
    Decode_int32 0 r1 = (n, r2, None) /\
    2 <= n /\
    numParts c' = n /\
    decodeParts (Z.to_nat n) 0 (make Address_nil n) r2 = (Parts c', r', None) /\
    c' = set_Parts (Parts c') c1.
Proof.
  intros H.
  destruct (Decode_header_cases c r) as [(c1 & r1 & Hh) | (? & ? & ? & Hf)];
    [|congruence].
  rewrite (Decode_header _ _ _ _ Hh) in H.
  destruct (Decode_int32 0 r1) as [[n r2] [e|]] eqn:En; [discriminate|].
  destruct (n <? 2) eqn:Hn; [discriminate|].
  unfold make in H |- *. rewrite repeat_length in H.
  pose proof (decodeParts_length (Z.to_nat n) 0
                (repeat Address_nil (Z.to_nat n)) r2) as Hl.
  destruct (decodeParts _ _ _ _) as [[parts r3] err] eqn:Hd.
  injection H as <- <- ->. cbn in Hl. rewrite repeat_length in Hl.
  exists c1, r1, n, r2.
  split; [exact Hh|]. split; [exact En|]. split; [lia|].
  split; [|split; [destruct c1; exact Hd | reflexivity]].
  unfold numParts. destruct c1; cbn. rewrite Hl. lia.
Qed.

Lemma decodeParts_keeps (n i : nat) (parts : list Address) (r : Reader)
  (j : nat) :
  (j < i)%nat ->
  nth_error (fst (fst (decodeParts n i parts r))) j = nth_error parts j.
Proof.
  revert i parts r. induction n as [|n IH]; intros i parts r Hj;
    [reflexivity|].
  cbn [decodeParts].
  destruct (DecodeAddress r) as [[a r1] [e|]]; cbn [fst].
  - apply set_index_other. lia.
  - rewrite IH by lia. apply set_index_other. lia.
Qed.

(** A success of the participant loop: every slot it went over holds an
    address that the address decoder returned without error. *)
Lemma decodeParts_all (n i : nat) (parts : list Address) (r : Reader)
  (parts' : list Address) (r' : Reader) :
  decodeParts n i parts r = (parts', r', None) ->
  (i + n <= List.length parts)%nat ->
  forall k, (i <= k < i + n)%nat ->
    exists rk a rk',
      DecodeAddress rk = (a, rk', None) /\ nth_error parts' k = Some a.
Proof.
  revert i parts r. induction n as [|n IH]; intros i parts r H Hlen k Hk;
    [lia|].
  cbn [decodeParts] in H.
  destruct (DecodeAddress r) as [[a r1] [e|]] eqn:Ha; [discriminate|].
  destruct (Nat.eq_dec k i) as [->|Hne].
  - exists r, a, r1. split; [exact Ha|].
    pose proof (decodeParts_keeps n (S i) (set_index parts i a) r1 i) as Hk'.
    rewrite H in Hk'. cbn [fst] in Hk'. rewrite Hk' by lia.
    apply set_index_same. lia.
  - apply (IH _ _ _ H); [rewrite set_index_length|]; lia.
Qed.

(** X3.  Every proposal that [Decode] returns without error has at least
    two participants.  The run read the header from the buffer, then the
    count [n] from where the header ended; [n] passed the check and is the
    number of participants; the loop read the participants from where the
    count ended and left the reader where [Decode] leaves it; and each
    participant is an address that the address decoder returned without
    error. *)
Theorem Decode_success (c : ChannelProposal) (r : Reader)
  (c' : ChannelProposal) (r' : Reader) :
  ChannelProposal_Decode c r = (c', r', None) ->
  exists c1 r1 n r2,
    decodesHeader c r c1 r1 /\
    Decode_int32 0 r1 = (n, r2, None) /\
    2 <= n /\
    numParts c' = n /\
    decodeParts (Z.to_nat n) 0 (make Address_nil n) r2 = (Parts c', r', None) /\
    c' = set_Parts (Parts c') c1 /\
    forall k, (k < List.length (Parts c'))%nat ->
      exists rk a rk',
        DecodeAddress rk = (a, rk', None) /\ nth_error (Parts c') k = Some a.
Proof.
  intros H.
  destruct (Decode_success_inv _ _ _ _ H)
    as (c1 & r1 & n & r2 & Hh & Hn & Hge & Hnum & Hparts & Hc).
  exists c1, r1, n, r2.
  split; [exact Hh|]. split; [exact Hn|]. split; [exact Hge|].
  split; [exact Hnum|]. split; [exact Hparts|]. split; [exact Hc|].
  intros k Hk.
  apply (decodeParts_all _ _ _ _ _ _ Hparts).
  - unfold make. rewrite repeat_length. lia.
  - unfold numParts in Hnum. lia.
Qed.


(** X5.  When [Encode] succeeds the number of participants fits an [int32]: the
    count written is the length of [Parts], never a truncation of it, and
    the header, the count and every participant were encoded in this
    order. *)
Theorem Encode_success (p : ChannelProposal) (w w' : Writer) :
  ChannelProposal_Encode p w = (w', None) ->
  numParts p <= math.MaxInt32 /\
  int32 (numParts p) = numParts p /\
  exists w1 w2,
    encodeHeader p w = (w1, None) /\
    Encode_int32 (numParts p) w1 = (w2, None) /\
    encodeParts 0 (Parts p) w2 = (w', None).
Proof.
  rewrite Encode_header.
  destruct (encodeHeader p w) as [w1 [e|]]; [discriminate|].
  destruct (numParts p >? math.MaxInt32) eqn:Hgt; [discriminate|].
  assert (Hr : 0 <= numParts p <= math.MaxInt32)
    by (unfold numParts in *; lia).
  rewrite int32_small by exact Hr. unfold andThen.
  destruct (Encode_int32 (numParts p) w1) as [w2 [e|]] eqn:En;
    [discriminate|].
  intros H. split; [lia|]. split; [reflexivity|]. now exists w1, w2.
Qed.

(** A failure of the loop over the participants: the participants before
    some index encoded, the one at the index failed, and the error names
    that index. *)
Lemma encodeParts_failure (parts : list Address) (i : Z) (w w' : Writer)
  (e : error) :
  encodeParts i parts w = (w', Some e) ->
  exists pre a post w3 cause,
    parts = pre ++ a :: post /\
    encodeParts i pre w = (w3, None) /\
    Address_Encode a w3 = (w', Some cause) /\
    e = Errorf "error encoding participant %d"
               [i + Z.of_nat (List.length pre)].
Proof.
  revert i w. induction parts as [|a parts IH]; intros i w H;
    [discriminate|].
  cbn [encodeParts] in H.
  destruct (Address_Encode a w) as [w1 [cause|]] eqn:Ha.
  - injection H as <- <-. exists [], a, parts, w, cause.
    cbn. rewrite Z.add_0_r. auto.
  - apply IH in H. destruct H as (pre & a' & post & w3 & cause & -> & Hp
                                  & Ha' & ->).
    exists (a :: pre), a', post, w3, cause. cbn [encodeParts app].
    rewrite Ha. repeat split; try assumption.
    cbn [List.length]. rewrite Nat2Z.inj_succ.
    replace (i + Z.succ (Z.of_nat (List.length pre)))
      with (i + 1 + Z.of_nat (List.length pre)) by lia.
    reflexivity.
Qed.

(** X6.  The errors of [Encode]: the error of a field before the count as the
    codec returned it, with nothing written behind that field; the
    overflow error; the error of the count's codec; or the error of a
    participant, whose index is that of the first participant that fails
    to encode and is below the count. *)
Theorem Encode_failure (p : ChannelProposal) (w w' : Writer) (e : error) :
  ChannelProposal_Encode p w = (w', Some e) ->
  encodeHeader p w = (w', Some e) \/
  exists w1,
    encodeHeader p w = (w1, None) /\
    ((numParts p > math.MaxInt32 /\ w' = w1 /\
      e = Errorf "expected maximum number of participants %d, got %d"
                 [math.MaxInt32; numParts p]) \/
     (numParts p <= math.MaxInt32 /\
      (Encode_int32 (numParts p) w1 = (w', Some e) \/
       exists w2 pre a post w3 cause,
         Encode_int32 (numParts p) w1 = (w2, None) /\
         Parts p = pre ++ a :: post /\
         encodeParts 0 pre w2 = (w3, None) /\
         Address_Encode a w3 = (w', Some cause) /\
         0 <= Z.of_nat (List.length pre) < numParts p /\
         e = Errorf "error encoding participant %d"
                    [Z.of_nat (List.length pre)]))).
Proof.
  rewrite Encode_header.
  destruct (encodeHeader p w) as [w1 [e1|]]; [intros [= <- <-]; now left|].
  intros H. right. exists w1. split; [reflexivity|].
  destruct (numParts p >? math.MaxInt32) eqn:Hgt.
  - injection H as <- <-. left. repeat split. lia.
  - right. split; [lia|].
    assert (Hr : 0 <= numParts p <= math.MaxInt32)
      by (unfold numParts in *; lia).
    rewrite int32_small in H by exact Hr. unfold andThen in H.
    destruct (Encode_int32 (numParts p) w1) as [w2 [e2|]] eqn:En.
    + injection H as <- <-. now left.
    + right. apply encodeParts_failure in H.
      destruct H as (pre & a & post & w3 & cause & Hp & Hpre & Ha & ->).
      exists w2, pre, a, post, w3, cause. rewrite Z.add_0_l.
      repeat split; try assumption; try lia.
      unfold numParts. rewrite Hp, length_app. cbn [List.length]. lia.
Qed.

(** X7.  [Decode] annotates nothing: an error it returns is the error of one of
    the field decoders or of the resolution of [AppDef], as that returned
    it and with the reader where that left it, or it is the error of the
    participant count, for a count below 2. *)
Theorem Decode_failure (c : ChannelProposal) (r : Reader)
  (c' : ChannelProposal) (r' : Reader) (e : error) :
  ChannelProposal_Decode c r = (c', r', Some e) ->
  (exists old r0 v, Decode_uint64 old r0 = (v, r', Some e)) \/
  (exists old r0 v, Decode_bigInt old r0 = (v, r', Some e)) \/
  (exists r0 v, DecodeAddress r0 = (v, r', Some e)) \/
  (exists app, AppFromDefinition (AppDef c') = (app, Some e)) \/
  (exists app r0 v, DecodeData app r0 = (v, r', Some e)) \/
  (exists r0 v, Allocation_Decode Allocation_new r0 = (v, r', Some e)) \/
  (exists r0 n, Decode_int32 0 r0 = (n, r', Some e)) \/
  (exists r0 n, Decode_int32 0 r0 = (n, r', None) /\ n < 2 /\
                e = Errorf "expected at least 2 participants, got %d" [n]).
Proof.
  unfold ChannelProposal_Decode.
  destruct (Decode_uint64 _ r) as [[v1 r1] [e1|]] eqn:E1; cbn.
  { intros [= <- <- <-]. left. eauto. }
  destruct (Decode_bigInt _ r1) as [[v2 r2] [e2|]] eqn:E2; cbn.
  { intros [= <- <- <-]. right; left. eauto. }
  destruct (DecodeAddress r2) as [[v3 r3] [e3|]] eqn:E3; cbn.
  { intros [= <- <- <-]. do 2 right; left. eauto. }
  destruct (DecodeAddress r3) as [[v4 r4] [e4|]] eqn:E4; cbn.
  { intros [= <- <- <-]. do 2 right; left. eauto. }
  destruct (AppFromDefinition v4) as [app [e5|]] eqn:E5; cbn.
  { intros [= <- <- <-]. do 3 right; left. cbn. eauto. }
  destruct (DecodeData app r4) as [[v5 r5] [e6|]] eqn:E6; cbn.
  { intros [= <- <- <-]. do 4 right; left. eauto. }
  destruct (Allocation_Decode _ r5) as [[v6 r6] [e7|]] eqn:E7; cbn.
  { intros [= <- <- <-]. do 5 right; left. eauto. }
  destruct (Decode_int32 0 r6) as [[n r7] [e8|]] eqn:E8; cbn.
  { intros [= <- <- <-]. do 6 right; left. eauto. }
  destruct (n <? 2) eqn:Hn.
  { intros [= <- <- <-]. do 7 right. exists r6, n.
    repeat split; [assumption | lia]. }
  destruct (decodeParts _ _ _ _) as [[parts r8] err] eqn:Hd.
  intros [= <- <- ->].
  apply decodeParts_failure in Hd; [|unfold make; rewrite !repeat_length; lia].
  destruct Hd as (k & rk & a & _ & Ha & _). do 2 right; left. eauto.
Qed.

(** X8.  The errors that report a number report it unambiguously: two
    participant-count errors of [Decode], two overflow errors of [Encode]
    or two participant errors of [Encode] are the same error only for the
    same count or index. *)
Theorem errors_identify_numbers (n m : Z) :
  (Errorf "expected at least 2 participants, got %d" [n]
   = Errorf "expected at least 2 participants, got %d" [m] -> n = m) /\
  (Errorf "expected maximum number of participants %d, got %d"
          [math.MaxInt32; n]
   = Errorf "expected maximum number of participants %d, got %d"
            [math.MaxInt32; m] -> n = m) /\
  (Errorf "error encoding participant %d" [n]
   = Errorf "error encoding participant %d" [m] -> n = m).
Proof.
  unfold Errorf. repeat split; intros H; injection H as H; cbn in H;
    rewrite !append_empty_r in H.
  - apply fmt_d_inj. congruence.
  - apply fmt_d_inj. congruence.
  - apply fmt_d_inj. congruence.
Qed.

(** With a canonical address codec, the participants that the loop of
    [Decode] reads are written back by the loop of [Encode] as the bytes
    that were consumed. *)
Lemma decodeParts_canonical (n : nat) (pre tl : list Address) (r : Reader)
  (res : list Address) (r' : Reader) :
  canonical Address_Encode DecodeAddress ->
  List.length tl = n ->
  decodeParts n (List.length pre) (pre ++ tl) r = (res, r', None) ->
  exists ds bs,
    res = pre ++ ds /\ r = bs ++ r' /\
    forall i, encodes (encodeParts i ds) bs.
Proof.
  intros Hc. revert pre tl r.
  induction n as [|n IH]; intros pre tl r Hlen H.
  - destruct tl; [|discriminate]. injection H as <- <-.
    exists [], []. repeat split. intros i w. cbn. now rewrite app_nil_r.
  - destruct tl as [|t tl]; [discriminate|]. injection Hlen as Hlen.
    cbn [decodeParts] in H.
    destruct (DecodeAddress r) as [[a r1] [e|]] eqn:Ha; [discriminate|].
    destruct (Hc _ _ _ Ha) as (ba & -> & Ea).
    rewrite set_index_app in H.
    replace (pre ++ a :: tl) with ((pre ++ [a]) ++ tl) in H
      by now rewrite <- app_assoc.
    replace (S (List.length pre)) with (List.length (pre ++ [a])) in H
      by (rewrite length_app; cbn; lia).
    destruct (IH _ _ _ Hlen H) as (ds & bs & -> & -> & Es).
    exists (a :: ds), (ba ++ bs). rewrite <- !app_assoc.
    repeat split. intros i w. cbn [encodeParts].
    rewrite Ea, Es. now rewrite app_assoc.
Qed.

Lemma proposal_canonical :
  codecs_canonical ->
  forall old, canonical ChannelProposal_Encode (ChannelProposal_Decode old).
Proof.
  intros (C1 & C2 & C3 & _ & _ & C6 & C7 & C8 & Hrange) c r p r' H.
  destruct (Decode_success_inv _ _ _ _ H)
    as (c1 & r1 & n & r2 & Hh & Hn & Hge & Hnum & Hparts & Hp).
  destruct Hh as (v1 & q1 & v2 & q2 & v3 & q3 & v4 & q4 & app & v5 & q5 & v6
                  & D1 & D2 & D3 & D4 & _ & D6 & D7 & ->).
  destruct (C1 _ _ _ _ D1) as (b1 & -> & E1).
  destruct (C2 _ _ _ _ D2) as (b2 & -> & E2).
  destruct (C6 _ _ _ D3) as (b3 & -> & E3).
  destruct (C6 _ _ _ D4) as (b4 & -> & E4).
  destruct (C7 _ _ _ _ D6) as (b5 & -> & E5).
  destruct (C8 _ _ _ _ D7) as (b6 & -> & E6).
  destruct (C3 _ _ _ _ Hn) as (b7 & -> & E7).
  pose proof (Hrange _ _ _ _ Hn) as Hmax.
  destruct (decodeParts_canonical (Z.to_nat n) [] (make Address_nil n) r2
              (Parts p) r' C6 (repeat_length _ _) Hparts)
    as (ds & bs & Hds & -> & Es).
  cbn [List.app] in Hds.
  exists (b1 ++ b2 ++ b3 ++ b4 ++ b5 ++ b6 ++ b7 ++ bs).
  split; [now rewrite <- !app_assoc|].
  intros w. rewrite Encode_header.
  assert (Eh : encodes (encodeHeader p) (b1 ++ b2 ++ b3 ++ b4 ++ b5 ++ b6)).
  { rewrite Hp. unfold encodeHeader. cbn.
    repeat apply encodes_andThen; assumption. }
  rewrite (Eh w), Hnum.
  replace (n >? math.MaxInt32) with false by (symmetry; lia).
  rewrite int32_small by lia.
  rewrite (andThen_ok _ _ _ _ (E7 _)), Hds, Es.
  now rewrite <- !app_assoc.
Qed.

Lemma acc_canonical :
  codecs_canonical ->
  forall old,
    canonical ChannelProposalAcc_Encode (ChannelProposalAcc_Decode old).
Proof.
  intros (_ & _ & _ & C4 & _ & C6 & _) acc r m r'.
  unfold ChannelProposalAcc_Decode.
  destruct (Decode_bytes32 _ r) as [[v r1] [e|]] eqn:D1; [discriminate|].
  cbn. destruct (DecodeAddress r1) as [[a r2] [e|]] eqn:D2; [discriminate|].
  intros [= <- <-].
  destruct (C4 _ _ _ _ D1) as (b1 & -> & E1).
  destruct (C6 _ _ _ D2) as (b2 & -> & E2).
  exists (b1 ++ b2). split; [now rewrite <- app_assoc|].
  intros w. unfold ChannelProposalAcc_Encode. cbn.
  now rewrite E1, E2, app_assoc.
Qed.

Lemma rej_canonical :
  codecs_canonical ->
  forall old,
    canonical ChannelProposalRej_Encode (ChannelProposalRej_Decode old).
Proof.
  intros (_ & _ & _ & C4 & C5 & _) rej r m r'.
  unfold ChannelProposalRej_Decode.
  destruct (Decode_bytes32 _ r) as [[v r1] [e|]] eqn:D1; [discriminate|].
  cbn. destruct (Decode_string _ r1) as [[t r2] err] eqn:D2.
  intros [= <- <- ->].
  destruct (C4 _ _ _ _ D1) as (b1 & -> & E1).
  destruct (C5 _ _ _ _ D2) as (b2 & -> & E2).
  exists (b1 ++ b2). split; [now rewrite <- app_assoc|].
  unfold ChannelProposalRej_Encode. cbn. now apply encodes_andThen.
Qed.

(** X9.  Decoding is inverted by encoding: over canonical field codecs, when
    [Decode] of a proposal, an accept or a reject message succeeds, the
    bytes it consumed are exactly the ones that [Encode] writes for the
    message it returned. *)
Theorem Decode_then_Encode :
  codecs_canonical ->
  (forall old,
      canonical ChannelProposal_Encode (ChannelProposal_Decode old)) /\
  (forall old,
      canonical ChannelProposalAcc_Encode (ChannelProposalAcc_Decode old)) /\
  (forall old,
      canonical ChannelProposalRej_Encode (ChannelProposalRej_Decode old)).
Proof.
  intros Hc. split; [|split].
  - now apply proposal_canonical.
  - now apply acc_canonical.
  - now apply rej_canonical.
Qed.

End MoreProposalProperties.

(** ** The further properties on the sample instances *)

Section MoreSampleRuns.
Import client Sample.

(** On [nilAccept] the wallet refuses the address; its error comes back
    under the name of the field. *)
Lemma Acc_Encode_failure_sample :
  (exists cause,
      Encode_bytes32 (Acc_SessID nilAccept) [] = (sid, Some cause) /\
      withMessage (fundamental "address must have 20 bytes")
                  "participant address encoding"
      = withMessage cause "SID encoding" /\
      carries (withMessage (fundamental "address must have 20 bytes")
                           "participant address encoding") cause) \/
  (exists w1 cause,
      Encode_bytes32 (Acc_SessID nilAccept) [] = (w1, None) /\
      Address_Encode (Acc_ParticipantAddr nilAccept) w1
      = (sid, Some cause) /\
      withMessage (fundamental "address must have 20 bytes")
                  "participant address encoding"
      = withMessage cause "participant address encoding" /\
      carries (withMessage (fundamental "address must have 20 bytes")
                           "participant address encoding") cause).
Proof.
  exact (@Acc_Encode_failure wire wallet nilAccept [] sid
           (withMessage (fundamental "address must have 20 bytes")
                        "participant address encoding") eq_refl).
Defined.

(** The bytes of the happy-path proposal decode to two participants. *)
Lemma Decode_success_sample :
  exists c1 r1 n r2,
    decodesHeader ChannelProposal_zero proposalBytes c1 r1 /\
    Decode_int32 0 r1 = (n, r2, None) /\
    2 <= n /\
    numParts proposal = n /\
    decodeParts (Z.to_nat n) 0 (make Address_nil n) r2
    = (Parts proposal, [], None) /\
    proposal = set_Parts (Parts proposal) c1 /\
    forall k, (k < List.length (Parts proposal))%nat ->
      exists rk a rk',
        DecodeAddress rk = (a, rk', None) /\
        nth_error (Parts proposal) k = Some a.
Proof.
  exact (@Decode_success wire wallet channel ChannelProposal_zero
           proposalBytes proposal [] eq_refl).
Defined.


(** [Encode] of the happy-path proposal writes the count 2. *)
Lemma Encode_success_sample :
  numParts proposal <= math.MaxInt32 /\
  int32 (numParts proposal) = numParts proposal /\
  exists w1 w2,
    encodeHeader proposal [] = (w1, None) /\
    Encode_int32 (numParts proposal) w1 = (w2, None) /\
    encodeParts 0 (Parts proposal) w2 = (proposalBytes, None).
Proof.
  exact (@Encode_success wire wallet channel proposal [] proposalBytes
           eq_refl).
Defined.

(** [Encode] with a nil address as second participant: the last case of
    the four, at index 1. *)
Lemma Encode_failure_sample :
  let p := proposalOf [alice; []; bob] in
  let w' := proposalHeader ++ PutUint 4 3 ++ alice in
  let e := fundamental "error encoding participant 1" in
  encodeHeader p [] = (w', Some e) \/
  exists w1,
    encodeHeader p [] = (w1, None) /\
    ((numParts p > math.MaxInt32 /\ w' = w1 /\
      e = Errorf "expected maximum number of participants %d, got %d"
                 [math.MaxInt32; numParts p]) \/
     (numParts p <= math.MaxInt32 /\
      (Encode_int32 (numParts p) w1 = (w', Some e) \/
       exists w2 pre a post w3 cause,
         Encode_int32 (numParts p) w1 = (w2, None) /\
         Parts p = pre ++ a :: post /\
         encodeParts 0 pre w2 = (w3, None) /\
         Address_Encode a w3 = (w', Some cause) /\
         0 <= Z.of_nat (List.length pre) < numParts p /\
         e = Errorf "error encoding participant %d"
                    [Z.of_nat (List.length pre)]))).
Proof.
  exact (@Encode_failure wire wallet channel (proposalOf [alice; []; bob])
           [] (proposalHeader ++ PutUint 4 3 ++ alice)
           (fundamental "error encoding participant 1") eq_refl).
Defined.

(** On [truncatedBytes] the error of [Decode] is the one of the allocation
    decoder. *)
Lemma Decode_failure_sample :
  (exists old r0 v, Decode_uint64 old r0 = (v, [], Some ErrUnexpectedEOF)) \/
  (exists old r0 v, Decode_bigInt old r0 = (v, [], Some ErrUnexpectedEOF)) \/
  (exists r0 v, DecodeAddress r0 = (v, [], Some ErrUnexpectedEOF)) \/
  (exists app,
      AppFromDefinition (AppDef truncatedProposal)
      = (app, Some ErrUnexpectedEOF)) \/
  (exists app r0 v, DecodeData app r0 = (v, [], Some ErrUnexpectedEOF)) \/
  (exists r0 v,
      Allocation_Decode Allocation_new r0 = (v, [], Some ErrUnexpectedEOF)) \/
  (exists r0 n, Decode_int32 0 r0 = (n, [], Some ErrUnexpectedEOF)) \/
  (exists r0 n, Decode_int32 0 r0 = (n, [], None) /\ n < 2 /\
                ErrUnexpectedEOF
                = Errorf "expected at least 2 participants, got %d" [n]).
Proof.
  exact (@Decode_failure wire wallet channel ChannelProposal_zero
           truncatedBytes truncatedProposal [] ErrUnexpectedEOF eq_refl).
Defined.

End MoreSampleRuns.

Section StrictRuns.
Import client Strict.

(** A decoder made strict is canonical, when the encoder writes the same
    bytes to every writer. *)
Lemma strict_canonical {A : Type} (enc : A -> Enc) (dec : Dec A) (old : A) :
  (forall v bs, enc v [] = (bs, None) -> encodes (enc v) bs) ->
  canonical enc (Strict.strict enc dec old).
Proof.
  intros Hu r v r'. unfold Strict.strict.
  destruct (dec r) as [[v0 r0] [e|]]; [discriminate|].
  destruct (enc v0 []) as [bs [e|]] eqn:He; [discriminate|].
  destruct (list_eq_dec _ r (bs ++ r0)) as [->|_]; [|discriminate].
  intros [= <- <-]. exists bs. split; [reflexivity | now apply Hu].
Qed.

Lemma strict_value {A : Type} (enc : A -> Enc) (dec : Dec A) (old : A)
  (r : Reader) (v : A) (r' : Reader) :
  Strict.strict enc dec old r = (v, r', None) -> dec r = (v, r', None).
Proof.
  unfold Strict.strict.
  destruct (dec r) as [[v0 r0] [e|]]; [discriminate|].
  destruct (enc v0 []) as [bs [e|]]; [discriminate|].
  destruct (list_eq_dec _ r (bs ++ r0)); [|discriminate].
  now intros [= <- <-].
Qed.

Lemma write_uniform (bs0 bs : list byte) :
  Sample.write bs0 [] = (bs, None) -> encodes (Sample.write bs0) bs.
Proof. intros [= <-]. intro w. reflexivity. Qed.

Lemma fail_uniform (msg : string) (bs : list byte) :
  Sample.fail msg [] = (bs, None) -> encodes (Sample.fail msg) bs.
Proof. discriminate. Qed.

(** [uniform] proves that a sample encoder, which either writes bytes that
    depend on the value alone or fails, writes the same bytes to every
    writer. *)
Ltac uniform :=
  intros ? ?;
  cbv beta iota zeta delta [Encode_uint64 Encode_bigInt Encode_int32
    Encode_bytes32 Encode_string Strict.wire Sample.wire
    Sample.encode_bigInt Sample.encode_string Sample.encode_address
    Sample.encode_data Sample.encode_allocation];
  repeat match goal with
         | |- context [match ?v with Some _ => _ | None => _ end] =>
             destruct v
         | |- context [if ?c then _ else _] => destruct c
         end;
  first [apply write_uniform | apply fail_uniform].

Lemma int32_le (x : Z) : int32 x <= math.MaxInt32.
Proof.
  unfold int32, math.MaxInt32.
  pose proof (Z.mod_pos_bound (x + 2 ^ 31) (2 ^ 32) eq_refl). lia.
Qed.

Lemma strict_codecs_canonical :
  @codecs_canonical Strict.wire Strict.wallet Strict.channel.
Proof.
  unfold codecs_canonical.
  do 8 (split; [intros; apply strict_canonical; uniform|]).
  intros old r n r' H. apply strict_value in H.
  cbv beta iota delta [Decode_int32 Sample.wire Sample.readFixed] in H.
  destruct (Sample.ReadFull 4 r) as [[bs r0]|]; cbv beta iota in H;
    [|discriminate].
  injection H as <- <-. apply int32_le.
Qed.

(** The bytes of the sample messages are the ones that [Encode] writes for
    what [Decode] makes of them. *)
Lemma Decode_then_Encode_sample :
  (exists bs, Sample.proposalBytes = bs ++ [] /\
              encodes (ChannelProposal_Encode Strict.proposal) bs) /\
  (exists bs, Strict.acceptBytes = bs ++ [] /\
              encodes (ChannelProposalAcc_Encode Strict.accept) bs) /\
  (exists bs, Strict.rejectBytes = bs ++ [] /\
              encodes (ChannelProposalRej_Encode Strict.reject) bs).
Proof.
  destruct (@Decode_then_Encode Strict.wire Strict.wallet Strict.channel
              strict_codecs_canonical) as (Hp & Ha & Hr).
  split; [|split].
  - apply (Hp ChannelProposal_zero). reflexivity.
  - apply (Ha ChannelProposalAcc_zero). reflexivity.
  - apply (Hr ChannelProposalRej_zero). reflexivity.
Defined.

End StrictRuns.

(** ** The messages and the decoders registered for them *)

Section RegistryProperties.
Import client.
Context {wire : Wire} {wallet : Wallet} {channel : Channel}.

(** The decoder registered for the type of a valid message reads the
    bytes of the message back. *)
Lemma registered_decodes (m : Msg) (bs : list byte) :
  msg_valid m ->
  Msg_Encode m [] = (bs, None) ->
  encodes (Msg_Encode m) bs /\
  forall rest, init (Type_ m) (bs ++ rest) = (m, rest, None).
Proof.
  destruct m as [p | acc | rej]; cbn [msg_valid Msg_Encode Type_ init].
  - intros (Hv & Hn) He.
    destruct (proposal_roundtrip p Hv Hn) as (bs' & E & D).
    rewrite (E []) in He. injection He as <-.
    split; [exact E|]. intros rest.
    unfold decodeChannelProposal. now rewrite D.
  - intros Hv He. destruct (acc_roundtrip acc Hv) as (bs' & E & D).
    rewrite (E []) in He. injection He as <-.
    split; [exact E|]. intros rest.
    unfold decodeChannelProposalAcc. now rewrite D.
  - intros Hv He. destruct (rej_roundtrip rej Hv) as (bs' & E & D).
    rewrite (E []) in He. injection He as <-.
    split; [exact E|]. intros rest.
    unfold decodeChannelProposalRej. now rewrite D.
Qed.

Lemma valid_encodes (m : Msg) :
  msg_valid m -> exists bs, Msg_Encode m [] = (bs, None).
Proof.
  destruct m as [p | acc | rej]; cbn [msg_valid Msg_Encode].
  - intros (Hv & Hn).
    destruct (proposal_roundtrip p Hv Hn) as (bs & E & _).
    exists bs. apply (E []).
  - intros Hv. destruct (acc_roundtrip acc Hv) as (bs & E & _).
    exists bs. apply (E []).
  - intros Hv. destruct (rej_roundtrip rej Hv) as (bs & E & _).
    exists bs. apply (E []).
Qed.

(** X10.  Dispatch on the type: the bytes that [Encode] writes for a valid
    message, handed to the decoder that [init] registers for the [Type()]
    of the message, give the message back, and what follows the bytes is
    left in the reader. *)
Theorem init_decodes_encoded (m : Msg) :
  msg_valid m ->
  exists bs,
    encodes (Msg_Encode m) bs /\
    forall rest, init (Type_ m) (bs ++ rest) = (m, rest, None).
Proof.
  intros Hv. destruct (valid_encodes m Hv) as (bs & He).
  exists bs. now apply registered_decodes.
Qed.

(** X11.  The encoding is self-delimiting: when the bytes of one valid message
    followed by anything are the bytes of another valid message of the
    same type followed by anything, the two messages are the same, and so
    is what follows them.  In particular two valid messages of one type
    with the same bytes are equal. *)
Theorem Encode_self_delimiting (m1 m2 : Msg) (b1 b2 rest1 rest2 : list byte) :
  msg_valid m1 -> msg_valid m2 ->
  Type_ m1 = Type_ m2 ->
  Msg_Encode m1 [] = (b1, None) ->
  Msg_Encode m2 [] = (b2, None) ->
  b1 ++ rest1 = b2 ++ rest2 ->
  m1 = m2 /\ rest1 = rest2.
Proof.
  intros V1 V2 Ht E1 E2 Hb.
  destruct (registered_decodes m1 b1 V1 E1) as (_ & D1).
  destruct (registered_decodes m2 b2 V2 E2) as (_ & D2).
  specialize (D1 rest1). specialize (D2 rest2).
  rewrite Ht, Hb, D2 in D1. now injection D1 as <- <-.
Qed.

End RegistryProperties.

Section RegistryRuns.
Import client Sample.

Lemma sample_accept_valid : msg_valid (MsgChannelProposalAcc accept).
Proof.
  split; [now apply bytes32_valid | now apply address_valid].
Qed.

Lemma sample_proposal_valid : msg_valid (MsgChannelProposal proposal).
Proof.
  split.
  - apply well_formed_valid; [|cbv; discriminate].
    unfold well_formed. cbn.
    split; [lia|]. split; [exists 42; split; [reflexivity | lia]|].
    split; [reflexivity|]. split; [reflexivity|]. split; [lia|].
    split; [exists [5; 6]; repeat split; [cbn; lia|];
            repeat constructor; lia|].
    repeat constructor.
  - cbv. split; discriminate.
Qed.

(** The accept message of the sample goes through the registry. *)
Lemma init_decodes_encoded_sample :
  exists bs,
    encodes (Msg_Encode (MsgChannelProposalAcc accept)) bs /\
    forall rest,
      init (Type_ (MsgChannelProposalAcc accept)) (bs ++ rest)
      = (MsgChannelProposalAcc accept, rest, None).
Proof.
  exact (@init_decodes_encoded wire wallet channel
           (MsgChannelProposalAcc accept) sample_accept_valid).
Defined.

(** The sample proposal taken twice, each time followed by [x00]. *)
Lemma Encode_self_delimiting_sample :
  MsgChannelProposal proposal = MsgChannelProposal proposal /\
  [x00] = [x00].
Proof.
  exact (@Encode_self_delimiting wire wallet channel
           (MsgChannelProposal proposal) (MsgChannelProposal proposal)
           proposalBytes proposalBytes [x00] [x00]
           sample_proposal_valid sample_proposal_valid
           eq_refl eq_refl eq_refl eq_refl).
Defined.

End RegistryRuns.
